(** * clip-dr AI engine: model manager, job scheduler and cache

    A shallow embedding of the Python engine under [ai-engine/src] and
    [_shared/ai-engine/src]:

    - [model_manager.py] (both variants): the model table, the shared
      [DEFAULT_MODELS] catalog and the VRAM budget;
    - [job_registry.py] and [server.py]: the job table, the worker pool
      and the JSON-RPC handlers for jobs and cache;
    - [cache.py]: the disk cache with per-entry expiry.

    Python dictionaries are finite maps ([gmap]); mutable objects held in
    a dictionary are updated by re-inserting the changed record; the
    module-level [DEFAULT_MODELS] dictionary, which [load_model] mutates,
    is an explicit component of the state.  Readings of [time.time()] are
    passed to each operation as exact rationals. *)

From Stdlib Require Import ZArith QArith Qround Lia Lqa.
From stdpp Require Import base option list gmap strings fin_maps.

Local Open Scope string_scope.
Local Open Scope Z_scope.
Set Warnings "-register-all".

(** ** Python values *)

(** Python values ([Any]): the JSON-representable ones, as they travel in
    request parameters and sit in the catalog's [config] dictionaries, and
    objects that [json] cannot serialize (a [numpy.int32], say), named by
    their [repr]. *)
Inductive pyval : Type :=
| PNone
| PBool (b : bool)
| PInt (z : Z)
| PStr (s : string)
| PList (l : list pyval)
| PDict (items : list (string * pyval))
| PObject (repr : string).

(** Whether [json.dumps] accepts the value (otherwise it raises
    [TypeError]). *)
Fixpoint json_serializable (v : pyval) : bool :=
  match v with
  | PNone | PBool _ | PInt _ | PStr _ => true
  | PList l => forallb json_serializable l
  | PDict items => forallb (λ kv, let '(_, x) := kv in json_serializable x) items
  | PObject _ => false
  end.

Abbreviation pydict := (gmap string pyval).

(** [d.get(key, default)] *)
Definition dict_get (d : pydict) (key : string) (dflt : pyval) : pyval :=
  default dflt (d !! key).

(** [d.update(other)]: the keys of [other] win. *)
Definition dict_update (d other : pydict) : pydict := other ∪ d.

(** Truth value of an optional dictionary argument ([if options:]):
    [None] and the empty dictionary are false. *)
Definition truthy_options (options : option pydict) : bool :=
  match options with
  | None => false
  | Some d => negb (bool_decide (d = ∅))
  end.

(** [int(x)] on a float: truncation towards zero. *)
Definition py_int (x : Q) : Z := Z.quot (Qnum x) (Zpos (Qden x)).

(** ** The model catalog ([DEFAULT_MODELS], [MODEL_VRAM_ESTIMATES]) *)

Module Catalog.

Record entry : Type := Entry {
  c_name : string;
  c_type : string;
  c_size : Z;
  c_loader : string;
  c_config : option pydict;
}.

(** The literal [DEFAULT_MODELS] of [model_manager.py] (identical in both
    variants), as it is when the module is first imported. *)
Definition DEFAULT_MODELS : gmap string entry :=
  list_to_map [
    ("easyocr-en",
      Entry "EasyOCR English" "ocr" 100000000 "easyocr"
        (Some {[ "lang_list" := PList [PStr "en"] ]}));
    ("easyocr-multilingual",
      Entry "EasyOCR Multilingual" "ocr" 200000000 "easyocr"
        (Some {[ "lang_list" :=
                 PList [PStr "en"; PStr "es"; PStr "fr"; PStr "de"; PStr "it"; PStr "pt"] ]}));
    ("sentence-transformers/all-MiniLM-L6-v2",
      Entry "MiniLM-L6 Embeddings" "embeddings" 90000000 "sentence_transformers" None);
    ("sentence-transformers/all-mpnet-base-v2",
      Entry "MPNet Base Embeddings" "embeddings" 420000000 "sentence_transformers" None);
    ("nsfw-classifier",
      Entry "NSFW Image Classifier" "nsfw" 150000000 "nsfw" None);
    ("whisper-tiny",
      Entry "Whisper Tiny" "whisper" 75000000 "whisper"
        (Some {[ "model_size" := PStr "tiny" ]}));
    ("whisper-base",
      Entry "Whisper Base" "whisper" 150000000 "whisper"
        (Some {[ "model_size" := PStr "base" ]}));
    ("whisper-small",
      Entry "Whisper Small" "whisper" 500000000 "whisper"
        (Some {[ "model_size" := PStr "small" ]}));
    ("whisper-medium",
      Entry "Whisper Medium" "whisper" 1500000000 "whisper"
        (Some {[ "model_size" := PStr "medium" ]}))
  ].

(** [MAX_GPU_VRAM_BYTES = 6 * 1024 * 1024 * 1024] *)
Definition MAX_GPU_VRAM_BYTES : Z := 6 * 1024 * 1024 * 1024.

(** [MODEL_VRAM_ESTIMATES] of the shared variant. *)
Definition MODEL_VRAM_ESTIMATES : gmap string Z :=
  list_to_map [
    ("easyocr-en", 500000000);
    ("easyocr-multilingual", 800000000);
    ("sentence-transformers/all-MiniLM-L6-v2", 300000000);
    ("sentence-transformers/all-mpnet-base-v2", 500000000);
    ("nsfw-classifier", 400000000);
    ("whisper-tiny", 150000000);
    ("whisper-base", 300000000);
    ("whisper-small", 1000000000);
    ("whisper-medium", 3000000000)
  ].

End Catalog.

(** ** Model records and the concrete loaders *)

(** The object a loader returns.  The manager never looks inside it; the
    embedding keeps the arguments the library was called with. *)
Inductive Instance : Type :=
| EasyOcrReader (lang_list : pyval)
| SentenceTransformer (model_id : string)
| NsfwPipeline
| WhisperModel (model_size : pyval).

(** A reference to a configuration dictionary.  [config.get("config", {})]
    returns either the dictionary stored inside [DEFAULT_MODELS] (shared by
    every later call) or a new empty one. *)
Inductive dict_ref : Type :=
| OwnDict (d : pydict)
| CatalogConfig (model_id : string).

Record ModelInfo : Type := mkModelInfo {
  m_id : string;
  m_name : string;
  m_type : string;
  m_size : Z;
  loaded : bool;
  instance : option Instance;
  memory_usage : Z;
  last_used : Q;
  load_options : dict_ref;
}.

(** [ModelInfo(id=..., name=..., type=..., size=...)] with the dataclass
    defaults. *)
Definition new_ModelInfo (model_id name type : string) (size : Z) : ModelInfo :=
  mkModelInfo model_id name type size false None 0 0%Q (OwnDict ∅).

(** [_load_model_instance].  [lib_ok] is the outcome of the third-party
    constructor ([easyocr.Reader], [SentenceTransformer], [pipeline],
    [whisper.load_model]): [false] when it raises.  [None] stands for a
    raised exception; an unknown loader raises [ValueError]. *)
Definition _load_model_instance
    (loader model_id : string) (config : pydict) (lib_ok : bool) : option Instance :=
  if String.eqb loader "easyocr" then
    if lib_ok then Some (EasyOcrReader (dict_get config "lang_list" (PList [PStr "en"])))
    else None
  else if String.eqb loader "sentence_transformers" then
    if lib_ok then Some (SentenceTransformer model_id) else None
  else if String.eqb loader "nsfw" then
    if lib_ok then Some NsfwPipeline else None
  else if String.eqb loader "whisper" then
    if lib_ok then Some (WhisperModel (dict_get config "model_size" (PStr "base")))
    else None
  else None.

(** What [load_model] does with the catalog before it calls the loader:
<<
    config = DEFAULT_MODELS.get(model_id, {})
    loader = config.get("loader", "unknown")
    model_config = config.get("config", {})
    if options:
        model_config.update(options)
>>
    The result is the loader name, the reference held in [model_config],
    the dictionary it denotes after the update, and the catalog after the
    update. *)
Definition resolve_config
    (catalog : gmap string Catalog.entry) (model_id : string) (options : option pydict)
  : string * dict_ref * pydict * gmap string Catalog.entry :=
  let fresh : pydict :=
    if truthy_options options then dict_update ∅ (default ∅ options) else ∅ in
  match catalog !! model_id with
  | None => ("unknown", OwnDict fresh, fresh, catalog)
  | Some config =>
    let loader := Catalog.c_loader config in
    match Catalog.c_config config with
    | None => (loader, OwnDict fresh, fresh, catalog)
    | Some d =>
      if truthy_options options then
        let d' := dict_update d (default ∅ options) in
        (loader, CatalogConfig model_id, d',
         <[model_id := Catalog.Entry (Catalog.c_name config) (Catalog.c_type config)
                         (Catalog.c_size config) loader (Some d')]> catalog)
      else (loader, CatalogConfig model_id, d, catalog)
    end
  end.


(** [_register_default_models]: one unloaded record per catalog key. *)
Definition _register_default_models (catalog : gmap string Catalog.entry)
  : gmap string ModelInfo :=
  map_imap (λ model_id config,
    Some (new_ModelInfo model_id (Catalog.c_name config) (Catalog.c_type config)
            (Catalog.c_size config))) catalog.

(** ** The budgeted model manager ([_shared/ai-engine/src/model_manager.py]) *)

Module ModelManager.

Record t : Type := mk {
  max_vram : Z;
  current_vram_usage : Z;
  models : gmap string ModelInfo;
}.

(** The process state the manager works on: the module-level catalog and
    the manager object. *)
Record world : Type := World {
  catalog : gmap string Catalog.entry;
  manager : t;
}.

(** [ModelManager(max_vram=...)] *)
Definition __init__ (max_vram : Z) (catalog : gmap string Catalog.entry) : world :=
  World catalog (mk max_vram 0 (_register_default_models catalog)).

(** [register_model] *)
Definition register_model (model_id name model_type : string) (size : Z) (w : world) : world :=
  World (catalog w)
    (mk (max_vram (manager w)) (current_vram_usage (manager w))
        (<[model_id := new_ModelInfo model_id name model_type size]> (models (manager w)))).

Definition _estimate_vram_usage (model_id : string) : Z :=
  default 500000000 (Catalog.MODEL_VRAM_ESTIMATES !! model_id).

Definition _check_vram_budget (mm : t) (model_id : string) : bool :=
  let estimated := _estimate_vram_usage model_id in
  let projected := current_vram_usage mm + estimated in
  if projected >? max_vram mm then false else true.

(** [load_model(model_id, options)]; [now] is the reading of
    [time.time()], [lib_ok] the outcome of the concrete loader. *)
Definition load_model
    (model_id : string) (options : option pydict) (now : Q) (lib_ok : bool) (w : world)
  : bool * world :=
  let mm := manager w in
  match models mm !! model_id with
  | None => (false, w)
  | Some model =>
    if loaded model then (true, w)
    else if negb (_check_vram_budget mm model_id) then (false, w)
    else
      let '(loader, model_config_ref, model_config, catalog') :=
        resolve_config (catalog w) model_id options in
      match _load_model_instance loader model_id model_config lib_ok with
      | None => (false, World catalog' mm)
      | Some inst =>
        let estimated_vram := _estimate_vram_usage model_id in
        let model' :=
          mkModelInfo (m_id model) (m_name model) (m_type model) (m_size model)
            true (Some inst) estimated_vram now model_config_ref in
        (true,
         World catalog'
           (mk (max_vram mm) (current_vram_usage mm + estimated_vram)
               (<[model_id := model']> (models mm))))
      end
  end.

(** The outcome of the concrete load side effect as [load_model] would
    invoke it in [w]: the instance, or [None] when it raises. *)
Definition load_attempt
    (model_id : string) (options : option pydict) (lib_ok : bool) (w : world)
  : option Instance :=
  let '(loader, _, model_config, _) := resolve_config (catalog w) model_id options in
  _load_model_instance loader model_id model_config lib_ok.

(** [unload_model(model_id)].  The bookkeeping comes first; [cleanup_ok]
    is the outcome of the garbage-collection and CUDA-cache hooks that
    follow it ([false]: one of them raised and the [except] branch
    returned [False]). *)
Definition unload_model (model_id : string) (cleanup_ok : bool) (w : world) : bool * world :=
  let mm := manager w in
  match models mm !! model_id with
  | None => (false, w)
  | Some model =>
    if negb (loaded model) then (true, w)
    else
      let freed_vram := memory_usage model in
      let model' :=
        mkModelInfo (m_id model) (m_name model) (m_type model) (m_size model)
          false None 0 (last_used model) (load_options model) in
      (cleanup_ok,
       World (catalog w)
         (mk (max_vram mm) (Z.max 0 (current_vram_usage mm - freed_vram))
             (<[model_id := model']> (models mm))))
  end.

(** [get_model_status]: [None] for the [ValueError] on an unknown id. *)
Definition get_model_status (model_id : string) (w : world) : option (bool * Z * option Z) :=
  match models (manager w) !! model_id with
  | None => None
  | Some model =>
    Some (loaded model, memory_usage model,
          if Qeq_bool (last_used model) 0 then None
          else Some (py_int (last_used model * 1000)))
  end.

(** What a loaded model is charged: its [memory_usage] while [loaded]. *)
Definition charged (model : ModelInfo) : Z :=
  if loaded model then memory_usage model else 0.

(** Sum of [memory_usage] over the currently loaded models. *)
Definition loaded_cost (ms : gmap string ModelInfo) : Z :=
  map_fold (λ _ model acc, charged model + acc) 0 ms.

(** The invariant that every call preserves. *)
Record budget_inv (limit : Z) (w : world) : Prop := BudgetInv {
  inv_limit : max_vram (manager w) = limit;
  inv_sum : current_vram_usage (manager w) = loaded_cost (models (manager w));
  inv_charges : map_Forall (λ _ model, 0 ≤ charged model) (models (manager w));
  inv_bound : current_vram_usage (manager w) ≤ limit;
}.

(** A call of the public interface, with the outcomes of the external
    effects it may reach. *)
Inductive call : Type :=
| Load (model_id : string) (options : option pydict) (now : Q) (lib_ok : bool)
| Unload (model_id : string) (cleanup_ok : bool).

Definition do_call (c : call) (w : world) : bool * world :=
  match c with
  | Load model_id options now lib_ok => load_model model_id options now lib_ok w
  | Unload model_id cleanup_ok => unload_model model_id cleanup_ok w
  end.

(** A call that unloads a model other than [model_id]. *)
Definition unloads_other (model_id : string) (c : call) : Prop :=
  match c with
  | Unload k _ => k ≠ model_id
  | Load _ _ _ _ => False
  end.

(** The states observed between the calls of a sequence, the initial one
    included. *)
Fixpoint observe (cs : list call) (w : world) : list world :=
  match cs with
  | [] => [w]
  | c :: cs' => w :: observe cs' (snd (do_call c w))
  end.

(** The state after a whole sequence. *)
Definition run (cs : list call) (w : world) : world :=
  fold_left (λ w c, snd (do_call c w)) cs w.

(** A raised exception: its class and its message. *)
Inductive raised : Type := Raised (cls msg : string).

(** [list_models]: one row (id, name, type, loaded, size) per model.  The
    rows come in the order of the finite map, not in insertion order. *)
Definition list_models (w : world) : list (string * string * string * bool * Z) :=
  (λ kv : string * ModelInfo,
     (m_id kv.2, m_name kv.2, m_type kv.2, loaded kv.2, m_size kv.2))
    <$> map_to_list (models (manager w)).

Definition set_last_used (now : Q) (model : ModelInfo) : ModelInfo :=
  mkModelInfo (m_id model) (m_name model) (m_type model) (m_size model)
    (loaded model) (instance model) (memory_usage model) now (load_options model).

(** [get_model(model_id)] at clock reading [now]. *)
Definition get_model (model_id : string) (now : Q) (w : world)
  : (raised + option Instance) * world :=
  match models (manager w) !! model_id with
  | None => (inl (Raised "ValueError" ("Unknown model: " +:+ model_id)), w)
  | Some model =>
    if negb (loaded model)
    then (inl (Raised "ValueError" ("Model not loaded: " +:+ model_id)), w)
    else
      (inr (instance model),
       World (catalog w)
         (mk (max_vram (manager w)) (current_vram_usage (manager w))
             (<[model_id := set_last_used now model]> (models (manager w)))))
  end.

(** [ensure_loaded(model_id, options)]; [now] is the clock reading inside
    [load_model], [now'] the one that stamps [last_used] afterwards. *)
Definition ensure_loaded
    (model_id : string) (options : option pydict) (now now' : Q) (lib_ok : bool) (w : world)
  : (raised + option Instance) * world :=
  match models (manager w) !! model_id with
  | None => (inl (Raised "ValueError" ("Unknown model: " +:+ model_id)), w)
  | Some model =>
    let '(ok, w1) :=
      if negb (loaded model) then load_model model_id options now lib_ok w else (true, w) in
    if negb ok
    then (inl (Raised "RuntimeError" ("Failed to load model: " +:+ model_id)), w1)
    else
      match models (manager w1) !! model_id with
      | None => (inr None, w1)
      | Some model1 =>
        (inr (instance model1),
         World (catalog w1)
           (mk (max_vram (manager w1)) (current_vram_usage (manager w1))
               (<[model_id := set_last_used now' model1]> (models (manager w1)))))
      end
  end.

(** The loop of [unload_all] over a list of identifiers; [cleanup_ok]
    gives the outcome of the cleanup hooks for each model. *)
Definition unload_each (cleanup_ok : string → bool) (ids : list string) (w : world) : world :=
  fold_left
    (λ w model_id,
       match models (manager w) !! model_id with
       | Some model =>
         if loaded model then (unload_model model_id (cleanup_ok model_id) w).2 else w
       | None => w
       end)
    ids w.

(** [unload_all]: [for model_id in list(self.models.keys())]. *)
Definition unload_all (cleanup_ok : string → bool) (w : world) : world :=
  unload_each cleanup_ok (map_to_list (models (manager w))).*1 w.

(** What holds of every model record that load and unload calls can
    produce: the record sits under its own identifier, it holds an instance
    exactly while loaded, and its [memory_usage] is the estimate while
    loaded and zero otherwise. *)
Definition record_ok (model_id : string) (model : ModelInfo) : Prop :=
  m_id model = model_id
  ∧ (if loaded model
     then is_Some (instance model) ∧ memory_usage model = _estimate_vram_usage model_id
     else instance model = None ∧ memory_usage model = 0).


End ModelManager.

(** ** The manager without a budget ([ai-engine/src/model_manager.py]) *)

Module EngineModelManager.

Record world : Type := World {
  catalog : gmap string Catalog.entry;
  models : gmap string ModelInfo;
}.

Definition __init__ (catalog : gmap string Catalog.entry) : world :=
  World catalog (_register_default_models catalog).

Definition load_model
    (model_id : string) (options : option pydict) (now : Q) (lib_ok : bool) (w : world)
  : bool * world :=
  match models w !! model_id with
  | None => (false, w)
  | Some model =>
    if loaded model then (true, w)
    else
      let '(loader, model_config_ref, model_config, catalog') :=
        resolve_config (catalog w) model_id options in
      match _load_model_instance loader model_id model_config lib_ok with
      | None => (false, World catalog' (models w))
      | Some inst =>
        let model' :=
          mkModelInfo (m_id model) (m_name model) (m_type model) (m_size model)
            true (Some inst) (memory_usage model) now model_config_ref in
        (true, World catalog' (<[model_id := model']> (models w)))
      end
  end.

Definition load_attempt
    (model_id : string) (options : option pydict) (lib_ok : bool) (w : world)
  : option Instance :=
  let '(loader, _, model_config, _) := resolve_config (catalog w) model_id options in
  _load_model_instance loader model_id model_config lib_ok.

Definition unload_model (model_id : string) (cleanup_ok : bool) (w : world) : bool * world :=
  match models w !! model_id with
  | None => (false, w)
  | Some model =>
    if negb (loaded model) then (true, w)
    else
      let model' :=
        mkModelInfo (m_id model) (m_name model) (m_type model) (m_size model)
          false None 0 (last_used model) (load_options model) in
      (cleanup_ok, World (catalog w) (<[model_id := model']> (models w)))
  end.

(** [get_model_status] of the budget-less variant: [None] for the
    [ValueError] on an unknown id. *)
Definition get_model_status (model_id : string) (w : world) : option (bool * Z * option Z) :=
  match models w !! model_id with
  | None => None
  | Some model =>
    Some (loaded model, memory_usage model,
          if Qeq_bool (last_used model) 0 then None
          else Some (py_int (last_used model * 1000)))
  end.

(** A call of the public interface of the budget-less variant. *)
Inductive call : Type :=
| Load (model_id : string) (options : option pydict) (now : Q) (lib_ok : bool)
| Unload (model_id : string) (cleanup_ok : bool).

Definition do_call (c : call) (w : world) : bool * world :=
  match c with
  | Load model_id options now lib_ok => load_model model_id options now lib_ok w
  | Unload model_id cleanup_ok => unload_model model_id cleanup_ok w
  end.

Definition run (cs : list call) (w : world) : world :=
  fold_left (λ w c, (do_call c w).2) cs w.


End EngineModelManager.

(** ** The disk cache ([ai-engine/src/cache.py]) *)

Module Cache.

(** The content of a [*.json] file of the cache directory: an entry as
    [set] writes it, or bytes that [json.load] rejects. *)
Inductive file : Type :=
| EntryFile (key : string) (value : pyval) (createdAt : Z) (expiresAt : option Z)
| Corrupt.

Record t : Type := mk {
  default_ttl : option Z;
  files : gmap string file;
}.


(** [expires_at and now_ms > expires_at], for [expires_at = entry.get("expiresAt")]:
    a missing expiry or the number 0 never expires. *)
Definition is_expired (expiresAt : option Z) (now_ms : Q) : bool :=
  match expiresAt with
  | None => false
  | Some e => negb (e =? 0)%Z && negb (Qle_bool now_ms (inject_Z e))
  end.

Section WithHash.

(** [hashlib.sha256(key.encode()).hexdigest()[:32]] *)
Variable sha256_hex32 : string → string.

Definition _key_to_path (key : string) : string := sha256_hex32 key +:+ ".json".

(** [get(key)] at clock reading [now]: the entry read, and the directory
    afterwards (an expired entry is unlinked). *)
Definition get (key : string) (now : Q) (c : t) : option file * t :=
  let path := _key_to_path key in
  match files c !! path with
  | None => (None, c)
  | Some Corrupt => (None, c)
  | Some (EntryFile k v created expires_at) =>
    if is_expired expires_at (now * 1000)%Q
    then (None, mk (default_ttl c) (delete path (files c)))
    else (Some (EntryFile k v created expires_at), c)
  end.

(** [ttl if ttl is not None else self.default_ttl] *)
Definition effective_ttl (ttl : option Z) (c : t) : option Z :=
  match ttl with
  | Some n => Some n
  | None => default_ttl c
  end.

(** The [expiresAt] that [set] stores; [None] and 0 mean no expiry. *)
Definition expiry (ttl : option Z) (now : Q) (c : t) : option Z :=
  match effective_ttl ttl c with
  | None => None
  | Some n => if (n =? 0)%Z then None else Some (py_int ((now + inject_Z n) * 1000)%Q)
  end.

(** [set(key, value, ttl)]; [now] and [now'] are the two successive
    readings of the clock.  The file is opened for writing, which empties
    it, before [json.dump] runs: when the value is not serializable the
    [TypeError] is logged and what is left in the file does not parse. *)
Definition set (key : string) (value : pyval) (ttl : option Z) (now now' : Q) (c : t) : t :=
  let path := _key_to_path key in
  let entry := EntryFile key value (py_int (now' * 1000)%Q) (expiry ttl now c) in
  mk (default_ttl c)
     (<[path := if json_serializable value then entry else Corrupt]> (files c)).

(** [delete(key)]: whether the file existed, and the directory afterwards. *)
Definition delete (key : string) (c : t) : bool * t :=
  let path := _key_to_path key in
  match files c !! path with
  | Some _ => (true, mk (default_ttl c) (base.delete path (files c)))
  | None => (false, c)
  end.

End WithHash.

(** Whether [prune] unlinks a file at clock reading [now]. *)
Definition pruned (now : Q) (f : file) : bool :=
  match f with
  | Corrupt => true
  | EntryFile _ _ _ expires_at => is_expired expires_at (now * 1000)%Q
  end.

(** [prune()]: the number of files removed, and the directory afterwards. *)
Definition prune (now : Q) (c : t) : Z * t :=
  (Z.of_nat (size (filter (λ kv, pruned now kv.2 = true) (files c))),
   mk (default_ttl c) (filter (λ kv, pruned now kv.2 = false) (files c))).

(** Whether [clear(prefix)] unlinks a file. *)
Definition cleared (prefix : option string) (f : file) : bool :=
  match prefix with
  | None => true
  | Some p =>
    if String.eqb p "" then true
    else match f with
         | Corrupt => true
         | EntryFile k _ _ _ => String.prefix p k
         end
  end.

(** [clear(prefix)] *)
Definition clear (prefix : option string) (c : t) : Z * t :=
  (Z.of_nat (size (filter (λ kv, cleared prefix kv.2 = true) (files c))),
   mk (default_ttl c) (filter (λ kv, cleared prefix kv.2 = false) (files c))).

End Cache.

(** ** The handler registry ([ai-engine/src/job_registry.py]) *)

Module JobRegistry.

(** A handler is held by the name of the Python function; what it does
    when called is supplied by the events of the scheduler below. *)
Record t : Type := mk { _handlers : gmap string string }.

Definition empty : t := mk ∅.

Definition register (job_type handler : string) (r : t) : t :=
  mk (<[job_type := handler]> (_handlers r)).

Definition unregister (job_type : string) (r : t) : bool * t :=
  match _handlers r !! job_type with
  | Some _ => (true, mk (delete job_type (_handlers r)))
  | None => (false, r)
  end.

Definition has_handler (job_type : string) (r : t) : bool :=
  bool_decide (is_Some (_handlers r !! job_type)).

(** [get_handler]: [None] for the [KeyError]. *)
Definition get_handler (job_type : string) (r : t) : option string :=
  _handlers r !! job_type.

Definition list_job_types (r : t) : list string := (map_to_list (_handlers r)).*1.

(** [clear] *)
Definition clear (r : t) : t := mk ∅.


End JobRegistry.

(** ** The job scheduler and the RPC handlers ([ai-engine/src/server.py]) *)

Module Server.

(** The five values the [state] field of a job ever holds. *)
Inductive job_state : Type := Pending | Running | Done | Failed | Cancelled.

#[global] Instance job_state_eq_dec : EqDecision job_state.
Proof. solve_decision. Defined.

Definition state_str (st : job_state) : string :=
  match st with
  | Pending => "pending"
  | Running => "running"
  | Done => "done"
  | Failed => "failed"
  | Cancelled => "cancelled"
  end.

(** [job.state in ("done", "failed", "cancelled")] *)
Definition is_terminal (st : job_state) : bool :=
  match st with
  | Done | Failed | Cancelled => true
  | Pending | Running => false
  end.

Record Job : Type := mkJob {
  job_id : string;
  job_type : string;
  state : job_state;
  progress : Q;
  message : string;
  result : pyval;
  error : option string;
  created_at : Q;
  started_at : option Q;
  completed_at : option Q;
}.

(** [Job(id=job_id, type=type)], created at clock reading [now]. *)
Definition new_Job (job_id type : string) (now : Q) : Job :=
  mkJob job_id type Pending 0%Q "" PNone None now None None.

Definition set_state (st : job_state) (j : Job) : Job :=
  mkJob (job_id j) (job_type j) st (progress j) (message j) (result j) (error j)
    (created_at j) (started_at j) (completed_at j).

Definition set_progress (percent : Q) (msg : string) (j : Job) : Job :=
  mkJob (job_id j) (job_type j) (state j) percent msg (result j) (error j)
    (created_at j) (started_at j) (completed_at j).

Definition set_result (r : pyval) (j : Job) : Job :=
  mkJob (job_id j) (job_type j) (state j) (progress j) (message j) r (error j)
    (created_at j) (started_at j) (completed_at j).

Definition set_error (e : string) (j : Job) : Job :=
  mkJob (job_id j) (job_type j) (state j) (progress j) (message j) (result j) (Some e)
    (created_at j) (started_at j) (completed_at j).

Definition set_started_at (now : Q) (j : Job) : Job :=
  mkJob (job_id j) (job_type j) (state j) (progress j) (message j) (result j) (error j)
    (created_at j) (Some now) (completed_at j).

Definition set_completed_at (now : Q) (j : Job) : Job :=
  mkJob (job_id j) (job_type j) (state j) (progress j) (message j) (result j) (error j)
    (created_at j) (started_at j) (Some now).

(** The work item that [executor.submit(self._run_job, ...)] creates,
    together with its [Future].  A [ThreadPoolExecutor] worker takes an
    item off the queue, marks its future RUNNING and only then calls
    [_run_job]; the future turns FINISHED when [_run_job] returns.

    [Queued]: future PENDING.  [Dropped]: future CANCELLED, the pool will
    discard the item.  The next four have the future RUNNING, with
    [_run_job] respectively not yet through its first locked block
    ([Dequeued]), inside the handler ([InHandler]), past the block that
    stores the result and about to send the result event
    ([SendingResult]), and past the block that stores the error and about
    to send the error event ([SendingError]).  [Finished]: future
    FINISHED. *)
Inductive work_item : Type :=
| Queued | Dropped | Dequeued | InHandler | SendingResult | SendingError | Finished.

#[global] Instance work_item_eq_dec : EqDecision work_item.
Proof. solve_decision. Defined.

(** [future.cancel()]: succeeds on a PENDING or already CANCELLED future,
    answers [False] on a RUNNING or FINISHED one. *)
Definition future_cancel (w : work_item) : work_item * bool :=
  match w with
  | Queued => (Dropped, true)
  | Dropped => (Dropped, true)
  | Dequeued | InHandler | SendingResult | SendingError | Finished => (w, false)
  end.

(** Where the single dispatcher thread is.  Requests are handled one at a
    time; only [_handle_jobs_cancel] touches shared state at several
    separate moments, between which worker threads may run. *)
Inductive dispatcher_pc : Type :=
| Idle
| CancelChecked (jobId : string)
| CancelGranted (jobId : string).

Record t : Type := mk {
  job_registry : JobRegistry.t;
  jobs : gmap string Job;
  futures : gmap string work_item;
  dispatcher : dispatcher_pc;
}.

(** A server that has handled nothing yet. *)
Definition init (registry : JobRegistry.t) : t := mk registry ∅ ∅ Idle.

Definition with_jobs (js : gmap string Job) (s : t) : t :=
  mk (job_registry s) js (futures s) (dispatcher s).

Definition with_futures (fs : gmap string work_item) (s : t) : t :=
  mk (job_registry s) (jobs s) fs (dispatcher s).

Definition with_dispatcher (d : dispatcher_pc) (s : t) : t :=
  mk (job_registry s) (jobs s) (futures s) d.

(** [self.jobs[job_id].field = ...] guarded by [if job_id in self.jobs]. *)
Definition update_job (job_id : string) (f : Job → Job) (s : t) : t :=
  match jobs s !! job_id with
  | Some j => with_jobs (<[job_id := f j]> (jobs s)) s
  | None => s
  end.

Inductive exn : Type := ValueError (msg : string).

Inductive outcome (A : Type) : Type :=
| Return (a : A)
| Raise (e : exn).
Arguments Return {A} a.
Arguments Raise {A} e.

(** The result dictionaries of the job and cache handlers. *)
Inductive reply : Type :=
| JobIdReply (jobId : string)
| StatusReply (st : job_state) (percent : Q) (msg : option string)
    (startedAt completedAt : option Z)
| ResultData (data : pyval)
| ResultError (err : option string)
| CancelOk
| CancelRefused (reason : string)
| ListReply (l : list (string * string * job_state * Q))
| SuccessReply.

(** The ["success"] field of a reply, when it has one. *)
Definition success_of (r : reply) : option bool :=
  match r with
  | ResultData _ | CancelOk | SuccessReply => Some true
  | ResultError _ | CancelRefused _ => Some false
  | JobIdReply _ | StatusReply _ _ _ _ _ | ListReply _ => None
  end.

(** What [_handle_request] sends for a handler's outcome. *)
Inductive response : Type :=
| SuccessResponse (r : reply)
| ErrorResponse (code : Z) (msg : string).

Definition to_response (o : outcome reply) : response :=
  match o with
  | Return r => SuccessResponse r
  | Raise (ValueError m) => ErrorResponse (-32603) ("Internal error: " +:+ m)
  end.

(** [_handle_jobs_start]; [uuid] is the value of [uuid.uuid4()]. *)
Definition _handle_jobs_start
    (uuid type : string) (payload : pyval) (now : Q) (s : t) : t * outcome reply :=
  if negb (JobRegistry.has_handler type (job_registry s))
  then (s, Raise (ValueError ("Unknown job type: " +:+ type)))
  else
    (mk (job_registry s) (<[uuid := new_Job uuid type now]> (jobs s))
        (<[uuid := Queued]> (futures s)) (dispatcher s),
     Return (JobIdReply uuid)).

Definition ms_if_set (x : option Q) : option Z :=
  match x with
  | None => None
  | Some q => if Qeq_bool q 0 then None else Some (py_int (q * 1000)%Q)
  end.

(** [_handle_jobs_status] *)
Definition _handle_jobs_status (jobId : string) (s : t) : outcome reply :=
  match jobs s !! jobId with
  | None => Raise (ValueError ("Job not found: " +:+ jobId))
  | Some job =>
    Return (StatusReply (state job) (progress job)
              (if String.eqb (message job) "" then None else Some (message job))
              (ms_if_set (started_at job)) (ms_if_set (completed_at job)))
  end.

(** [_handle_jobs_result] *)
Definition _handle_jobs_result (jobId : string) (s : t) : outcome reply :=
  match jobs s !! jobId with
  | None => Raise (ValueError ("Job not found: " +:+ jobId))
  | Some job =>
    match state job with
    | Done => Return (ResultData (result job))
    | Failed => Return (ResultError (error job))
    | st => Return (ResultError (Some ("Job not complete: " +:+ state_str st)))
    end
  end.

(** [_handle_jobs_list] *)
Definition _handle_jobs_list (s : t) : outcome reply :=
  Return (ListReply
    ((λ kv : string * Job, (job_id kv.2, job_type kv.2, state kv.2, progress kv.2))
       <$> map_to_list (jobs s))).

(** [_handle_jobs_cancel], in its three moments.

    First the job is looked up and its state examined: an answer is
    ready ([inl]) when the job is unknown or already terminal. *)
Definition cancel_check (jobId : string) (s : t) : outcome reply + unit :=
  match jobs s !! jobId with
  | None => inl (Raise (ValueError ("Job not found: " +:+ jobId)))
  | Some job =>
    if is_terminal (state job)
    then inl (Return (CancelRefused ("Job already " +:+ state_str (state job))))
    else inr tt
  end.

(** Then [future and future.cancel()] is evaluated. *)
Definition cancel_future (jobId : string) (s : t) : t * bool :=
  match futures s !! jobId with
  | None => (s, false)
  | Some w =>
    let '(w', ok) := future_cancel w in
    (with_futures (<[jobId := w']> (futures s)) s, ok)
  end.

(** And, if that succeeded, the job object is marked. *)
Definition cancel_commit (jobId : string) (now : Q) (s : t) : t :=
  update_job jobId (λ j, set_completed_at now (set_state Cancelled j)) s.

(** The whole of [_handle_jobs_cancel] when no worker thread runs in
    between. *)
Definition _handle_jobs_cancel (jobId : string) (now : Q) (s : t) : t * outcome reply :=
  match cancel_check jobId s with
  | inl answer => (s, answer)
  | inr _ =>
    let '(s1, ok) := cancel_future jobId s in
    if ok then (cancel_commit jobId now s1, Return CancelOk)
    else (s1, Return (CancelRefused "Job is already running"))
  end.

(** [_run_job], in the moments at which it takes the lock.

    The first locked block. *)
Definition run_job_enter (job_id : string) (now : Q) (s : t) : t :=
  match jobs s !! job_id with
  | None => with_futures (<[job_id := Finished]> (futures s)) s
  | Some _ =>
    with_futures (<[job_id := InHandler]> (futures s))
      (update_job job_id (λ j, set_started_at now (set_state Running j)) s)
  end.

(** [on_progress(percent, message)] called by the handler. *)
Definition on_progress (job_id : string) (percent : Q) (msg : string) (s : t) : t :=
  update_job job_id (set_progress percent msg) s.

(** The handler returned [r]: the locked block under [# Success]. *)
Definition run_job_success (job_id : string) (r : pyval) (now : Q) (s : t) : t :=
  with_futures (<[job_id := SendingResult]> (futures s))
    (update_job job_id (λ j, set_completed_at now (set_result r (set_state Done j))) s).

(** The [except Exception] branch; [error_msg] is [str(e)].  It is entered
    when [get_handler] or the handler raises, and also when sending the
    result event raises, since that call is inside the [try] block too. *)
Definition run_job_failure (job_id error_msg : string) (now : Q) (s : t) : t :=
  with_futures (<[job_id := SendingError]> (futures s))
    (update_job job_id (λ j, set_completed_at now (set_error error_msg (set_state Failed j))) s).

(** Whether [json.dumps] accepts the result event of job [job_id], whose
    data is the result just stored. *)
Definition result_event_serializable (job_id : string) (s : t) : bool :=
  match jobs s !! job_id with
  | Some j => json_serializable (result j)
  | None => true
  end.

(** [_run_job] returned. *)
Definition run_job_exit (job_id : string) (s : t) : t :=
  with_futures (<[job_id := Finished]> (futures s)) s.

(** What can happen next in the process: a request handled by the
    dispatcher, the continuation of a cancel request, or a move of a
    worker thread.  Each carries what the environment contributes (fresh
    identifier, clock reading, what the handler does). *)
Inductive event : Type :=
| JobsStart (uuid type : string) (payload : pyval) (now : Q)
| JobsStatus (jobId : string)
| JobsResult (jobId : string)
| JobsList
| JobsCancel (jobId : string)
| CancelFuture
| CancelCommit (now : Q)
| Dequeue (job_id : string)
| Enter (job_id : string) (now : Q)
| Progress (job_id : string) (percent : Q) (msg : string)
| HandlerReturn (job_id : string) (r : pyval) (now : Q)
| HandlerRaise (job_id error_msg : string) (now : Q)
| ResultEventRaise (job_id error_msg : string) (now : Q)
| Exit (job_id : string).

(** Every move but the failure to send a result event. *)
Definition result_event_sent (e : event) : Prop :=
  match e with
  | ResultEventRaise _ _ _ => False
  | _ => True
  end.

Definition when_idle {A} (s : t) (x : A) : option A :=
  match dispatcher s with
  | Idle => Some x
  | _ => None
  end.

Definition when_item {A} (job_id : string) (w : work_item) (s : t) (x : A) : option A :=
  if bool_decide (futures s !! job_id = Some w) then Some x else None.

(** One move of the process: the next state and the answer sent, if the
    move completes a request.  [None] when the move cannot happen in [s].
    [JobsStart] takes a [uuid] that names no job yet.  The pool's size and
    queue order restrict which [Dequeue] can happen; they are left out, so
    that every real interleaving is among those described here.
    [_send_event] of the result event raises when the result is not
    serializable, and may raise when standard output is closed
    ([ResultEventRaise]); [_run_job] returns ([Exit]) after an event was
    sent, or after the error event itself raised. *)
Definition step (e : event) (s : t) : option (t * option (outcome reply)) :=
  match e with
  | JobsStart uuid type payload now =>
    if bool_decide (jobs s !! uuid = None ∧ futures s !! uuid = None) then
      when_idle s (let '(s', o) := _handle_jobs_start uuid type payload now s in (s', Some o))
    else None
  | JobsStatus jobId => when_idle s (s, Some (_handle_jobs_status jobId s))
  | JobsResult jobId => when_idle s (s, Some (_handle_jobs_result jobId s))
  | JobsList => when_idle s (s, Some (_handle_jobs_list s))
  | JobsCancel jobId =>
    when_idle s
      match cancel_check jobId s with
      | inl answer => (s, Some answer)
      | inr _ => (with_dispatcher (CancelChecked jobId) s, None)
      end
  | CancelFuture =>
    match dispatcher s with
    | CancelChecked jobId =>
      let '(s1, ok) := cancel_future jobId s in
      Some (if ok then (with_dispatcher (CancelGranted jobId) s1, None)
            else (with_dispatcher Idle s1, Some (Return (CancelRefused "Job is already running"))))
    | _ => None
    end
  | CancelCommit now =>
    match dispatcher s with
    | CancelGranted jobId =>
      Some (with_dispatcher Idle (cancel_commit jobId now s), Some (Return CancelOk))
    | _ => None
    end
  | Dequeue job_id =>
    when_item job_id Queued s (with_futures (<[job_id := Dequeued]> (futures s)) s, None)
  | Enter job_id now =>
    when_item job_id Dequeued s (run_job_enter job_id now s, None)
  | Progress job_id percent msg =>
    when_item job_id InHandler s (on_progress job_id percent msg s, None)
  | HandlerReturn job_id r now =>
    when_item job_id InHandler s (run_job_success job_id r now s, None)
  | HandlerRaise job_id error_msg now =>
    when_item job_id InHandler s (run_job_failure job_id error_msg now s, None)
  | ResultEventRaise job_id error_msg now =>
    when_item job_id SendingResult s (run_job_failure job_id error_msg now s, None)
  | Exit job_id =>
    match futures s !! job_id with
    | Some SendingResult =>
      if result_event_serializable job_id s then Some (run_job_exit job_id s, None) else None
    | Some SendingError => Some (run_job_exit job_id s, None)
    | _ => None
    end
  end.

(** The states a sequence of moves goes through, the first included;
    [None] if one of the moves cannot happen. *)
Fixpoint trace (evs : list event) (s : t) : option (list t) :=
  match evs with
  | [] => Some [s]
  | e :: evs' =>
    match step e s with
    | None => None
    | Some (s', _) => (s ::.) <$> trace evs' s'
    end
  end.

(** The state a sequence of moves ends in. *)
Definition exec (evs : list event) (s : t) : option t := trace evs s ≫= last.

(** The state of job [jobId] in [s], if the job exists. *)
Definition state_at (jobId : string) (s : t) : option job_state :=
  state <$> jobs s !! jobId.

(** A list with runs of equal neighbours collapsed. *)
Fixpoint changes {A} `{EqDecision A} (l : list A) : list A :=
  match l with
  | [] => []
  | x :: l' =>
    match l' with
    | [] => [x]
    | y :: _ => if decide (x = y) then changes l' else x :: changes l'
    end
  end.

(** The successive values of a job's [state] along a run ([None] while
    the job does not exist). *)
Definition history (jobId : string) (tr : list t) : list (option job_state) :=
  changes (state_at jobId <$> tr).


(** What the state of a job can be, given where its work item is.  A
    dropped item belongs to a cancelled job, or to a pending one that the
    dispatcher is about to mark. *)
Definition item_fits (d : dispatcher_pc) (jobId : string) (w : work_item) (st : job_state)
  : Prop :=
  match w with
  | Queued | Dequeued => st = Pending
  | Dropped => st = Cancelled ∨ (st = Pending ∧ d = CancelGranted jobId)
  | InHandler => st = Running
  | SendingResult => st = Done
  | SendingError => st = Failed
  | Finished => st = Done ∨ st = Failed
  end.

Definition fits_at (s : t) (jobId : string) : Prop :=
  match futures s !! jobId, jobs s !! jobId with
  | Some w, Some job => item_fits (dispatcher s) jobId w (state job)
  | None, None => True
  | _, _ => False
  end.

(** What holds of every state the server can reach. *)
Record consistent (s : t) : Prop := Consistent {
  cons_fits : ∀ jobId, fits_at s jobId;
  cons_granted : ∀ jobId, dispatcher s = CancelGranted jobId →
                          futures s !! jobId = Some Dropped;
}.

(** The moves of a job's state. *)
Inductive job_move : option job_state → option job_state → Prop :=
| move_create : job_move None (Some Pending)
| move_run : job_move (Some Pending) (Some Running)
| move_done : job_move (Some Running) (Some Done)
| move_fail : job_move (Some Running) (Some Failed)
| move_cancel : job_move (Some Pending) (Some Cancelled).

(** A list of states in which each is reached from the one before by a
    move. *)
Inductive path : list (option job_state) → Prop :=
| path_one x : path [x]
| path_cons x y l : job_move x y → path (y :: l) → path (x :: y :: l).

(** [_handle_cache_delete] and [_handle_cache_set], on the cache object. *)
Definition _handle_cache_delete
    (sha256_hex32 : string → string) (key : string) (c : Cache.t) : Cache.t * outcome reply :=
  let '(_, c') := Cache.delete sha256_hex32 key c in
  (c', Return SuccessReply).

Definition _handle_cache_set
    (sha256_hex32 : string → string) (key : string) (value : pyval) (ttl : option Z)
    (now now' : Q) (c : Cache.t) : Cache.t * outcome reply :=
  (Cache.set sha256_hex32 key value ttl now now' c, Return SuccessReply).

(** The result dictionaries of [_handle_cache_get] and
    [_handle_cache_clear]. *)
Inductive cache_reply : Type :=
| CacheMiss
| CacheHit (value : pyval) (expiresAt : option Z)
| CacheCleared (cleared : Z).

(** [_handle_cache_get] at clock reading [now].  [Cache.get] only ever
    returns an entry that parsed. *)
Definition _handle_cache_get
    (sha256_hex32 : string → string) (key : string) (now : Q) (c : Cache.t)
  : Cache.t * cache_reply :=
  match Cache.get sha256_hex32 key now c with
  | (Some (Cache.EntryFile _ v _ expires_at), c') => (c', CacheHit v expires_at)
  | (_, c') => (c', CacheMiss)
  end.

(** [_handle_cache_clear] *)
Definition _handle_cache_clear (prefix : option string) (c : Cache.t) : Cache.t * cache_reply :=
  let '(cleared, c') := Cache.clear prefix c in
  (c', CacheCleared cleared).

(** What the fields of a job record look like in each state: the record
    sits under its own identifier, [completed_at] is set exactly in the
    terminal states, [started_at] exactly once a worker has entered
    [_run_job], and [error] exactly in the state failed. *)
Definition stamps_ok (jobId : string) (job : Job) : Prop :=
  job_id job = jobId
  ∧ (is_Some (completed_at job) ↔ is_terminal (state job) = true)
  ∧ (is_Some (started_at job) ↔ state job = Running ∨ state job = Done ∨ state job = Failed)
  ∧ (is_Some (error job) ↔ state job = Failed).

(** Every job in the table is well stamped and of a registered type. *)
Definition well_stamped (s : t) : Prop :=
  ∀ jobId job, jobs s !! jobId = Some job →
    stamps_ok jobId job
    ∧ JobRegistry.has_handler (job_type job) (job_registry s) = true.

(** Nothing is left to do for job [k]: [_run_job] has returned, or the
    work item was dropped and the job marked cancelled. *)
Definition closed (k : string) (s : t) : Prop :=
  futures s !! k = Some Finished
  ∨ (futures s !! k = Some Dropped
     ∧ state_at k s = Some Cancelled
     ∧ dispatcher s ≠ CancelChecked k
     ∧ dispatcher s ≠ CancelGranted k).

(** While the dispatcher is inside a cancel request for job [k]: before
    [future.cancel()] the work item has not been dropped, and between a
    successful [future.cancel()] and the marking of the job, the job is
    still pending. *)
Definition cancel_in_progress_ok (s : t) : Prop :=
  ∀ k, (dispatcher s = CancelChecked k → futures s !! k ≠ Some Dropped)
       ∧ (dispatcher s = CancelGranted k → state_at k s = Some Pending).


End Server.

(** ** The request dispatcher ([run] and [_handle_request] of [server.py]) *)

Module Protocol.

(** What [json.loads] returns for a request line. *)
Inductive json : Type :=
| JNull
| JBool (b : bool)
| JInt (z : Z)
| JFloat (q : Q)
| JStr (s : string)
| JArr (l : list json)
| JObj (items : list (string * json)).

(** [bool(v)]: what [if not method] tests. *)
Definition truthy (v : json) : bool :=
  match v with
  | JNull => false
  | JBool b => b
  | JInt z => negb (z =? 0)
  | JFloat q => negb (Qeq_bool q 0)
  | JStr s => negb (String.eqb s "")
  | JArr l => match l with [] => false | _ => true end
  | JObj items => match items with [] => false | _ => true end
  end.

(** Whether the value can be looked up in a dictionary ([method in
    self.handlers]): lists and dictionaries raise [TypeError]. *)
Definition hashable (v : json) : bool :=
  match v with
  | JArr _ | JObj _ => false
  | _ => true
  end.

(** [d.get(key)] on a decoded object, whose keys are distinct. *)
Fixpoint obj_get (items : list (string * json)) (key : string) : option json :=
  match items with
  | [] => None
  | (k, v) :: rest => if String.eqb k key then Some v else obj_get rest key
  end.

(** The parameter names of a handler: those without and those with a
    default. *)
Record signature : Type := Signature {
  required : list string;
  optional : list string;
}.

(** Whether the call of a handler with the keyword arguments [params]
    can bind: every required name is given
    and no other name than the handler's. *)
Definition binds (sg : signature) (params : list (string * json)) : bool :=
  forallb (λ name, bool_decide (name ∈ params.*1)) (required sg)
  && forallb (λ name, bool_decide (name ∈ (required sg ++ optional sg)%list)) params.*1.

(** The methods of [_register_builtins] with the parameters of the
    functions they are bound to. *)
Definition builtin_signatures : list (string * signature) :=
  [ ("engine.health", Signature [] []);
    ("jobs.start", Signature ["type"; "payload"] ["priority"]);
    ("jobs.status", Signature ["jobId"] []);
    ("jobs.result", Signature ["jobId"] []);
    ("jobs.cancel", Signature ["jobId"] []);
    ("jobs.list", Signature [] []);
    ("cache.get", Signature ["key"] []);
    ("cache.set", Signature ["key"; "value"] ["ttl"]);
    ("cache.delete", Signature ["key"] []);
    ("cache.clear", Signature [] ["prefix"]);
    ("models.list", Signature [] []);
    ("models.load", Signature ["modelId"] ["options"]);
    ("models.unload", Signature ["modelId"] []);
    ("models.status", Signature ["modelId"] []) ].

(** The texts that Python itself produces and the server copies into its
    messages. *)
Inductive python_text : Type :=
| StrOf (v : json)
| ParseError (line : string)
| NotADict (request : json)
| Unhashable (method : json)
| CannotBind (method : string) (params : json)
| CannotDump (result : pyval).

(** What comes back from the call of a handler whose parameters are
    bound: a result, a [TypeError], or another exception, with the text of
    the exception. *)
Inductive call_result : Type :=
| Returned (r : pyval)
| RaisedTypeError (msg : string)
| RaisedOther (msg : string).

(** The line written to standard output. *)
Inductive response : Type :=
| Success (id : json) (result : pyval)
| Error (id : json) (code : Z) (message : string).

Section Dispatch.

(** The state the handlers work on. *)
Context {St : Type}.

Record handler : Type := Handler {
  handler_signature : signature;
  handler_body : list (string * json) → St → St * call_result;
}.

Variable text : python_text → string.
Variable handlers : gmap string handler.

(** [str(method)] in an f-string. *)
Definition method_str (method : json) : string :=
  match method with
  | JStr s => s
  | v => text (StrOf v)
  end.

(** What [_handle_request] does: it returns a response, or lets an
    exception escape ([inl], with the exception's text). *)
Definition _handle_request (request : json) (s : St) : St * (string + response) :=
  match request with
  | JObj fields =>
    let req_id := default JNull (obj_get fields "id") in
    let method := default JNull (obj_get fields "method") in
    let params := default (JObj []) (obj_get fields "params") in
    if negb (truthy method)
    then (s, inr (Error req_id (-32600) "Invalid request: missing method"))
    else if negb (hashable method)
    then (s, inl (text (Unhashable method)))
    else
      match (match method with JStr name => handlers !! name | _ => None end) with
      | Some h =>
        match method, params with
        | JStr name, JObj args =>
          if binds (handler_signature h) args then
            match handler_body h args s with
            | (s', Returned r) => (s', inr (Success req_id r))
            | (s', RaisedTypeError msg) =>
              (s', inr (Error req_id (-32602) ("Invalid params: " +:+ msg)))
            | (s', RaisedOther msg) =>
              (s', inr (Error req_id (-32603) ("Internal error: " +:+ msg)))
            end
          else
            (s, inr (Error req_id (-32602)
                       ("Invalid params: " +:+ text (CannotBind name params))))
        | _, _ =>
          (s, inr (Error req_id (-32602)
                     ("Invalid params: " +:+ text (CannotBind (method_str method) params))))
        end
      | None =>
        (s, inr (Error req_id (-32601) ("Method not found: " +:+ method_str method)))
      end
  | _ => (s, inl (text (NotADict request)))
  end.

(** One round of the loop of [run] on a non-blank line: [parsed] is what
    [json.loads] gives ([inl line] when it raises).  The response is
    serialized inside the same [try], so a result that cannot be
    serialized is answered as an internal error. *)
Definition handle_line (parsed : string + json) (s : St) : St * response :=
  match parsed with
  | inl line => (s, Error JNull (-32700) ("Parse error: " +:+ text (ParseError line)))
  | inr request =>
    match _handle_request request s with
    | (s', inl msg) => (s', Error JNull (-32603) ("Internal error: " +:+ msg))
    | (s', inr (Success id r)) =>
      if json_serializable r then (s', Success id r)
      else (s', Error JNull (-32603) ("Internal error: " +:+ text (CannotDump r)))
    | (s', inr (Error id code message)) => (s', Error id code message)
    end
  end.

End Dispatch.

(** [_register_builtins], given the bodies of the fourteen functions. *)
Definition _register_builtins {St : Type}
    (bodies : string → list (string * json) → St → St * call_result)
  : gmap string (@handler St) :=
  list_to_map ((λ '(name, sg), (name, Handler sg (bodies name))) <$> builtin_signatures).

(** The [id] and the error code of a response. *)
Definition response_id (r : response) : json :=
  match r with
  | Success id _ | Error id _ _ => id
  end.

Definition error_code (r : response) : option Z :=
  match r with
  | Success _ _ => None
  | Error _ code _ => Some code
  end.

End Protocol.


(** * Properties *)

(** ** The VRAM budget *)

Section Budget.
Import ModelManager.

Lemma estimate_table_positive :
  map_Forall (λ _ v, 0 < v) Catalog.MODEL_VRAM_ESTIMATES.
Proof.
  intros k v Hk. apply elem_of_list_to_map_2 in Hk.
  repeat (apply elem_of_cons in Hk as [Hk|Hk]; [inversion Hk; lia|]).
  by apply elem_of_nil in Hk.
Qed.

Lemma estimate_positive model_id : 0 < _estimate_vram_usage model_id.
Proof.
  unfold _estimate_vram_usage.
  destruct (Catalog.MODEL_VRAM_ESTIMATES !! model_id) as [v|] eqn:E; simpl; [|lia].
  exact (estimate_table_positive _ _ E).
Qed.

Lemma loaded_cost_empty : loaded_cost ∅ = 0.
Proof. unfold loaded_cost. apply map_fold_empty. Qed.

Lemma loaded_cost_insert_fresh (ms : gmap string ModelInfo) k model :
  ms !! k = None →
  loaded_cost (<[k := model]> ms) = charged model + loaded_cost ms.
Proof.
  intros Hk. unfold loaded_cost.
  rewrite map_fold_insert_L; [done| |done].
  intros. lia.
Qed.

Lemma loaded_cost_delete (ms : gmap string ModelInfo) k model :
  ms !! k = Some model →
  loaded_cost ms = charged model + loaded_cost (delete k ms).
Proof.
  intros Hk. unfold loaded_cost.
  rewrite (map_fold_delete_L _ _ k model ms); [done| |done].
  intros. lia.
Qed.

Lemma loaded_cost_insert (ms : gmap string ModelInfo) k old new :
  ms !! k = Some old →
  loaded_cost (<[k := new]> ms) = loaded_cost ms - charged old + charged new.
Proof.
  intros Hk.
  rewrite <- (insert_delete_eq ms k new).
  rewrite loaded_cost_insert_fresh by apply lookup_delete_eq.
  rewrite (loaded_cost_delete ms k old Hk). lia.
Qed.

Lemma loaded_cost_nonneg (ms : gmap string ModelInfo) :
  map_Forall (λ _ model, 0 ≤ charged model) ms → 0 ≤ loaded_cost ms.
Proof.
  induction ms as [|k model ms Hk IH] using map_ind; intros Hall.
  - rewrite loaded_cost_empty. lia.
  - rewrite loaded_cost_insert_fresh by done.
    apply map_Forall_insert in Hall as [Hm Hrest]; [|done].
    specialize (IH Hrest). lia.
Qed.

Lemma loaded_cost_unloaded (ms : gmap string ModelInfo) :
  map_Forall (λ _ model, loaded model = false) ms → loaded_cost ms = 0.
Proof.
  induction ms as [|k model ms Hk IH] using map_ind; intros Hall.
  - apply loaded_cost_empty.
  - rewrite loaded_cost_insert_fresh by done.
    apply map_Forall_insert in Hall as [Hm Hrest]; [|done].
    rewrite (IH Hrest). unfold charged. rewrite Hm. lia.
Qed.

Lemma register_default_unloaded catalog :
  map_Forall (λ _ model, loaded model = false) (_register_default_models catalog).
Proof.
  intros k model Hk. unfold _register_default_models in Hk.
  rewrite map_lookup_imap in Hk.
  destruct (catalog !! k); simpl in Hk; [|done].
  by inversion Hk.
Qed.

Lemma budget_inv_init limit catalog :
  0 ≤ limit → budget_inv limit (__init__ limit catalog).
Proof.
  intros Hl. pose proof (register_default_unloaded catalog) as Hun.
  split; simpl; [done| | |done].
  - by rewrite loaded_cost_unloaded.
  - intros k model Hk. unfold charged. by rewrite (Hun k model Hk).
Qed.

Lemma budget_inv_load limit model_id options now lib_ok w :
  budget_inv limit w → budget_inv limit (snd (load_model model_id options now lib_ok w)).
Proof.
  intros [Hl Hs Hc Hb]. unfold load_model.
  destruct (models (manager w) !! model_id) as [model|] eqn:Hm; [|by split].
  destruct (loaded model) eqn:Hld; [by split|].
  unfold _check_vram_budget.
  destruct (Z.gtb_spec (current_vram_usage (manager w) + _estimate_vram_usage model_id)
              (max_vram (manager w))) as [Hover|Hfit]; simpl; [by split|].
  destruct (resolve_config (catalog w) model_id options) as [[[loader ref] cfg] catalog'].
  destruct (_load_model_instance loader model_id cfg lib_ok) as [inst|]; simpl; [|by split].
  pose proof (estimate_positive model_id) as Hpos.
  split; simpl.
  - done.
  - rewrite (loaded_cost_insert _ _ model) by done.
    unfold charged at 1 2. rewrite Hld. simpl. lia.
  - apply map_Forall_insert_2; [|done]. unfold charged. simpl. lia.
  - lia.
Qed.

Lemma budget_inv_unload limit model_id cleanup_ok w :
  budget_inv limit w → budget_inv limit (snd (unload_model model_id cleanup_ok w)).
Proof.
  intros [Hl Hs Hc Hb]. unfold unload_model.
  destruct (models (manager w) !! model_id) as [model|] eqn:Hm; [|by split].
  destruct (loaded model) eqn:Hld; simpl; [|by split].
  pose proof (loaded_cost_delete _ _ _ Hm) as Hsplit.
  assert (0 ≤ loaded_cost (delete model_id (models (manager w)))) as Hrest.
  { apply loaded_cost_nonneg. intros k m' Hk.
    apply lookup_delete_Some in Hk as [_ Hk]. exact (Hc k m' Hk). }
  assert (charged model = memory_usage model) as Hch by (unfold charged; by rewrite Hld).
  split; simpl.
  - done.
  - rewrite (loaded_cost_insert _ _ model) by done.
    unfold charged at 2. simpl. lia.
  - apply map_Forall_insert_2; [|done]. unfold charged. simpl. lia.
  - pose proof (Hc _ _ Hm) as Hcm. simpl in Hcm. lia.
Qed.

Lemma budget_inv_call limit c w :
  budget_inv limit w → budget_inv limit (snd (do_call c w)).
Proof.
  destruct c; simpl; [apply budget_inv_load | apply budget_inv_unload].
Qed.

Lemma budget_inv_observe limit cs w :
  budget_inv limit w → Forall (budget_inv limit) (observe cs w).
Proof.
  revert w. induction cs as [|c cs IH]; intros w Hw; simpl.
  - by constructor.
  - constructor; [done|]. apply IH. by apply budget_inv_call.
Qed.

End Budget.

Section Loading.
Import ModelManager.

(** [load_model] on a known, unloaded model that the budget admits. *)
Lemma load_model_admitted model_id options now lib_ok w model :
  models (manager w) !! model_id = Some model →
  loaded model = false →
  current_vram_usage (manager w) + _estimate_vram_usage model_id ≤ max_vram (manager w) →
  load_model model_id options now lib_ok w =
    let '(loader, model_config_ref, model_config, catalog') :=
      resolve_config (catalog w) model_id options in
    match _load_model_instance loader model_id model_config lib_ok with
    | None => (false, World catalog' (manager w))
    | Some inst =>
      (true,
       World catalog'
         (mk (max_vram (manager w))
             (current_vram_usage (manager w) + _estimate_vram_usage model_id)
             (<[model_id :=
                  mkModelInfo (m_id model) (m_name model) (m_type model) (m_size model)
                    true (Some inst) (_estimate_vram_usage model_id) now model_config_ref]>
                (models (manager w)))))
    end.
Proof.
  intros Hm Hld Hfit. unfold load_model, _check_vram_budget.
  rewrite Hm, Hld.
  destruct (Z.gtb_spec (current_vram_usage (manager w) + _estimate_vram_usage model_id)
              (max_vram (manager w))) as [Hover|_]; [lia|].
  reflexivity.
Qed.

(** [load_model] on a known, unloaded model that the budget refuses. *)
Lemma load_model_refused model_id options now lib_ok w model :
  models (manager w) !! model_id = Some model →
  loaded model = false →
  current_vram_usage (manager w) + _estimate_vram_usage model_id > max_vram (manager w) →
  load_model model_id options now lib_ok w = (false, w).
Proof.
  intros Hm Hld Hover. unfold load_model, _check_vram_budget.
  rewrite Hm, Hld.
  destruct (Z.gtb_spec (current_vram_usage (manager w) + _estimate_vram_usage model_id)
              (max_vram (manager w))) as [_|Hfit]; [done|lia].
Qed.

(** Unloading other models leaves a model's record, the catalog and the
    maximum alone, and does not raise the counter. *)
Lemma run_unloads_other model_id cs w :
  Forall (unloads_other model_id) cs →
  models (manager (run cs w)) !! model_id = models (manager w) !! model_id
  ∧ catalog (run cs w) = catalog w
  ∧ max_vram (manager (run cs w)) = max_vram (manager w).
Proof.
  revert w. induction cs as [|c cs IH]; intros w Hcs; [done|].
  apply Forall_cons in Hcs as [Hc Hcs].
  destruct c as [|k cleanup_ok]; [done|]. simpl in Hc.
  change (run (Unload k cleanup_ok :: cs) w)
    with (run cs (snd (unload_model k cleanup_ok w))).
  destruct (IH (snd (unload_model k cleanup_ok w)) Hcs) as (-> & -> & ->).
  unfold unload_model.
  destruct (models (manager w) !! k) as [m|]; [|done].
  destruct (loaded m); simpl; [|done].
  by rewrite lookup_insert_ne.
Qed.

(** C1: for every sequence of load_model / unload_model calls on a fresh
    ModelManager (budget [limit], a byte count, hence not negative), at
    every point between calls [max_vram] is still [limit],
    [current_vram_usage] equals the sum of [memory_usage] over the loaded
    models, and it does not exceed [max_vram]. *)
Theorem budget_counter_sound
    (limit : Z) (initial_catalog : gmap string Catalog.entry) (cs : list call) :
  0 ≤ limit →
  Forall (λ w,
      max_vram (manager w) = limit
      ∧ current_vram_usage (manager w) = loaded_cost (models (manager w))
      ∧ current_vram_usage (manager w) ≤ max_vram (manager w))
    (observe cs (__init__ limit initial_catalog)).
Proof.
  intros Hl.
  eapply Forall_impl; [apply budget_inv_observe, budget_inv_init, Hl|].
  intros w [H1 H2 _ H4]. simpl. rewrite H1. done.
Qed.

Lemma budget_counter_sound_witness :
  0 ≤ 1000000000 ∧
  Forall (λ w,
      max_vram (manager w) = 1000000000
      ∧ current_vram_usage (manager w) = loaded_cost (models (manager w))
      ∧ current_vram_usage (manager w) ≤ max_vram (manager w))
    (observe
       [Load "easyocr-en" None 1%Q true;
        Load "whisper-small" None 2%Q true;
        Load "whisper-tiny" (Some {[ "model_size" := PStr "tiny.en" ]}) 3%Q false;
        Unload "easyocr-en" true;
        Load "whisper-small" None 4%Q true]
       (__init__ 1000000000 Catalog.DEFAULT_MODELS)).
Proof.
  split; [lia|]. apply (budget_counter_sound 1000000000 Catalog.DEFAULT_MODELS). lia.
Defined.



End Loading.

Section SharedCatalog.
Import ModelManager.




(** C5, as amended: for a known, not-yet-loaded model whose estimated
    cost added to current_vram_usage exceeds max_vram, load_model returns
    False and changes nothing; and after any calls that unload other
    models, once the projected total no longer exceeds max_vram, the same
    load_model call returns True, marks the model loaded and charges its
    estimate, provided the concrete load side effect does not raise. *)
Theorem over_budget_load_refused_until_freed
    (model_id : string) (options : option pydict) (now : Q) (lib_ok : bool)
    (w : world) (model : ModelInfo) :
  models (manager w) !! model_id = Some model →
  loaded model = false →
  current_vram_usage (manager w) + _estimate_vram_usage model_id > max_vram (manager w) →
  load_model model_id options now lib_ok w = (false, w)
  ∧ ∀ (cs : list call) (now' : Q) (lib_ok' : bool) (inst : Instance),
      Forall (unloads_other model_id) cs →
      current_vram_usage (manager (run cs w)) + _estimate_vram_usage model_id
        ≤ max_vram (manager (run cs w)) →
      load_attempt model_id options lib_ok' (run cs w) = Some inst →
      let r := load_model model_id options now' lib_ok' (run cs w) in
      r.1 = true
      ∧ (∃ model', models (manager r.2) !! model_id = Some model'
                   ∧ loaded model' = true ∧ instance model' = Some inst
                   ∧ memory_usage model' = _estimate_vram_usage model_id)
      ∧ current_vram_usage (manager r.2)
          = current_vram_usage (manager (run cs w)) + _estimate_vram_usage model_id.
Proof.
  intros Hm Hld Hover. split; [by eapply load_model_refused|].
  intros cs now' lib_ok' inst Hcs Hfit Hok. simpl.
  destruct (run_unloads_other model_id cs w Hcs) as (Hm' & _ & _).
  rewrite Hm in Hm'.
  rewrite (load_model_admitted _ _ _ _ _ _ Hm' Hld Hfit).
  unfold load_attempt in Hok.
  destruct (resolve_config (catalog (run cs w)) model_id options)
    as [[[loader ref] cfg] catalog'].
  rewrite Hok. simpl. split; [done|]. split; [|done].
  eexists. rewrite lookup_insert_eq. by split.
Qed.

Lemma over_budget_load_refused_until_freed_witness :
  let w0 := __init__ 600000000 Catalog.DEFAULT_MODELS in
  let w := (load_model "easyocr-en" None 1%Q true w0).2 in
  let cs := [Unload "easyocr-en" true] in
  let r := load_model "whisper-tiny" None 3%Q true (run cs w) in
  load_model "whisper-tiny" None 2%Q true w = (false, w)
  ∧ r.1 = true
  ∧ (∃ model', models (manager r.2) !! "whisper-tiny" = Some model'
               ∧ loaded model' = true
               ∧ instance model' = Some (WhisperModel (PStr "tiny"))
               ∧ memory_usage model' = _estimate_vram_usage "whisper-tiny")
  ∧ current_vram_usage (manager r.2)
      = current_vram_usage (manager (run cs w)) + _estimate_vram_usage "whisper-tiny".
Proof.
  intros w0 w cs r.
  destruct (over_budget_load_refused_until_freed "whisper-tiny" None 2%Q true w
              (new_ModelInfo "whisper-tiny" "Whisper Tiny" "whisper" 75000000))
    as [Hrefused Hlater].
  - vm_compute. reflexivity.
  - reflexivity.
  - vm_compute. reflexivity.
  - split; [exact Hrefused|].
    apply (Hlater cs 3%Q true (WhisperModel (PStr "tiny"))).
    + repeat constructor. simpl. discriminate.
    + vm_compute. discriminate.
    + vm_compute. reflexivity.
Defined.

(** C5 as stated fails in two places.  With a budget of 600 MB and
    easyocr-en (500 MB) loaded, easyocr-en is a known model whose estimate
    added to the counter exceeds the maximum, yet loading it again returns
    True.  And whisper-tiny, refused in that state, is still refused after
    easyocr-en is unloaded and the budget admits it, when its loader raises. *)
Lemma over_budget_load_counterexample :
  let w0 := __init__ 600000000 Catalog.DEFAULT_MODELS in
  let w := (load_model "easyocr-en" None 1%Q true w0).2 in
  let w' := (unload_model "easyocr-en" true w).2 in
  (is_Some (models (manager w) !! "easyocr-en")
   ∧ current_vram_usage (manager w) + _estimate_vram_usage "easyocr-en"
       > max_vram (manager w)
   ∧ (load_model "easyocr-en" None 2%Q true w).1 = true)
  ∧
  ((load_model "whisper-tiny" None 2%Q false w).1 = false
   ∧ current_vram_usage (manager w') + _estimate_vram_usage "whisper-tiny"
       ≤ max_vram (manager w')
   ∧ (load_model "whisper-tiny" None 3%Q false w').1 = false).
Proof.
  vm_compute. repeat split; try discriminate. by eexists.
Qed.



End SharedCatalog.

(** ** The job state machine *)

Section Scheduler.
Import Server.

Lemma consistent_init registry : consistent (init registry).
Proof. split; [|done]. intros jobId. unfold fits_at. simpl. by rewrite !lookup_empty. Qed.

Lemma state_at_update_job_eq jobId f s job :
  jobs s !! jobId = Some job →
  state_at jobId (update_job jobId f s) = Some (state (f job)).
Proof.
  intros Hj. unfold state_at, update_job. rewrite Hj. simpl.
  by rewrite lookup_insert_eq.
Qed.

Lemma jobs_update_job_ne jobId k f s :
  jobId ≠ k → jobs (update_job k f s) !! jobId = jobs s !! jobId.
Proof.
  intros Hne. unfold update_job.
  destruct (jobs s !! k); simpl; [|done]. by rewrite lookup_insert_ne.
Qed.

Lemma futures_update_job k f s : futures (update_job k f s) = futures s.
Proof. unfold update_job. by destruct (jobs s !! k). Qed.

Lemma dispatcher_update_job k f s : dispatcher (update_job k f s) = dispatcher s.
Proof. unfold update_job. by destruct (jobs s !! k). Qed.

Lemma jobs_update_job_eq k f s :
  jobs (update_job k f s) !! k = f <$> jobs s !! k.
Proof.
  unfold update_job. destruct (jobs s !! k) eqn:E; simpl; [|by rewrite E].
  by rewrite lookup_insert_eq.
Qed.

(** A worker's move on item [k]: the item goes from [w] to [w'], the job
    is rewritten by [f], everything else stays. *)
Lemma consistent_worker_move s s' k w w' f :
  consistent s →
  futures s !! k = Some w →
  w ≠ Dropped → w' ≠ Dropped →
  dispatcher s' = dispatcher s →
  futures s' = <[k := w']> (futures s) →
  (∀ jobId, jobId ≠ k → jobs s' !! jobId = jobs s !! jobId) →
  jobs s' !! k = f <$> jobs s !! k →
  (∀ job, item_fits (dispatcher s) k w (state job) →
          item_fits (dispatcher s) k w' (state (f job))) →
  consistent s'.
Proof.
  intros [Hfit Hgr] Hk Hw Hw' Hd Hfs Hother Hjob Hf. split.
  - intros jobId. unfold fits_at. rewrite Hd, Hfs.
    destruct (decide (jobId = k)) as [->|Hne].
    + rewrite lookup_insert_eq, Hjob.
      specialize (Hfit k). unfold fits_at in Hfit. rewrite Hk in Hfit.
      destruct (jobs s !! k) as [job|]; [|done]. simpl. by apply Hf.
    + rewrite lookup_insert_ne, Hother by done. apply Hfit.
  - intros jobId. rewrite Hd, Hfs.
    intros Hg. specialize (Hgr jobId Hg).
    destruct (decide (jobId = k)) as [->|Hne]; [congruence|].
    by rewrite lookup_insert_ne.
Qed.

(** The dispatcher moves to a place other than [CancelGranted], the job
    table and the items stay. *)
Lemma consistent_dispatcher_move s d :
  consistent s →
  (∀ jobId, dispatcher s ≠ CancelGranted jobId) →
  (∀ jobId, d ≠ CancelGranted jobId) →
  consistent (with_dispatcher d s).
Proof.
  intros [Hfit Hgr] Hs Hd. split.
  - intros jobId. specialize (Hfit jobId). unfold fits_at in *. simpl.
    destruct (futures s !! jobId) as [w|], (jobs s !! jobId) as [job|]; try done.
    destruct w; simpl in *; try done.
    destruct Hfit as [?|[_ Hg]]; [by left|]. by destruct (Hs jobId).
  - simpl. intros jobId Hg. by destruct (Hd jobId).
Qed.

Lemma with_futures_same s k w :
  futures s !! k = Some w → with_futures (<[k := w]> (futures s)) s = s.
Proof. intros Hk. destruct s. unfold with_futures. simpl in *. by rewrite insert_id. Qed.

Lemma with_dispatcher_same s : with_dispatcher (dispatcher s) s = s.
Proof. by destruct s. Qed.

Lemma when_idle_Some {A} s (x y : A) :
  when_idle s x = Some y → dispatcher s = Idle ∧ x = y.
Proof. unfold when_idle. destruct (dispatcher s); naive_solver. Qed.

Lemma when_item_Some {A} k w s (x y : A) :
  when_item k w s x = Some y → futures s !! k = Some w ∧ x = y.
Proof. unfold when_item. case_bool_decide; naive_solver. Qed.

Lemma fits_at_job s k w :
  consistent s → futures s !! k = Some w →
  ∃ job, jobs s !! k = Some job ∧ item_fits (dispatcher s) k w (state job).
Proof.
  intros [Hfit _] Hk. specialize (Hfit k). unfold fits_at in Hfit. rewrite Hk in Hfit.
  destruct (jobs s !! k) as [job|]; [|done]. by exists job.
Qed.

Ltac worker_frame :=
  simpl; rewrite ?dispatcher_update_job, ?futures_update_job, ?option_fmap_id;
  try done;
  try (intros; by apply jobs_update_job_ne);
  try apply jobs_update_job_eq.

(** Every move, the failure to send a result event apart, keeps the
    items and the job table consistent, and changes the state of a job, if
    at all, along one of the five moves. *)
Lemma step_sound e s s' o :
  consistent s →
  result_event_sent e →
  step e s = Some (s', o) →
  consistent s'
  ∧ ∀ jobId, state_at jobId s' = state_at jobId s
             ∨ job_move (state_at jobId s) (state_at jobId s').
Proof.
  intros Hs Hsent Hstep.
  destruct e as [uuid type payload now | jobId | jobId | | jobId | | now
                | k | k now | k percent msg | k r now | k error_msg now
                | k error_msg now | k];
    simpl in Hstep.
  - (* JobsStart *)
    case_bool_decide as Hfresh; [|done]. destruct Hfresh as [Hj Hf].
    apply when_idle_Some in Hstep as [Hidle Heq].
    unfold _handle_jobs_start in Heq.
    destruct (negb _); inversion Heq; subst; clear Heq; [by split; [|left]|].
    destruct Hs as [Hfit Hgr]. split; [split|].
    + intros jobId. unfold fits_at. simpl.
      destruct (decide (jobId = uuid)) as [->|Hne].
      * by rewrite !lookup_insert_eq.
      * rewrite !lookup_insert_ne by done. apply Hfit.
    + simpl. rewrite Hidle. done.
    + intros jobId. unfold state_at. simpl.
      destruct (decide (jobId = uuid)) as [->|Hne].
      * right. rewrite lookup_insert_eq, Hj. constructor.
      * left. by rewrite lookup_insert_ne.
  - (* JobsStatus *)
    apply when_idle_Some in Hstep as [_ Heq]. inversion Heq; subst. by split; [|left].
  - (* JobsResult *)
    apply when_idle_Some in Hstep as [_ Heq]. inversion Heq; subst. by split; [|left].
  - (* JobsList *)
    apply when_idle_Some in Hstep as [_ Heq]. inversion Heq; subst. by split; [|left].
  - (* JobsCancel *)
    apply when_idle_Some in Hstep as [Hidle Heq].
    destruct (cancel_check jobId s); inversion Heq; subst; clear Heq; [by split; [|left]|].
    split; [|by left].
    apply consistent_dispatcher_move; [done| |done]. intros k. by rewrite Hidle.
  - (* CancelFuture *)
    destruct (dispatcher s) as [|k|] eqn:Hd; try done.
    unfold cancel_future in Hstep.
    destruct (futures s !! k) as [w|] eqn:Hk.
    + destruct (fits_at_job s k w Hs Hk) as (job & Hjob & Hw).
      destruct w; simpl in Hstep; inversion Hstep; subst; clear Hstep;
        try (rewrite (with_futures_same s k) by done;
             split; [|by left];
             apply consistent_dispatcher_move; [done| |done];
             intros k'; by rewrite Hd).
      * (* the queued item is dropped *)
        split; [|by left]. destruct Hs as [Hfit Hgr]. split.
        -- intros jobId. unfold fits_at. simpl.
           destruct (decide (jobId = k)) as [->|Hne].
           ++ rewrite lookup_insert_eq, Hjob. simpl in *. by right.
           ++ rewrite lookup_insert_ne by done.
              specialize (Hfit jobId). unfold fits_at in Hfit. rewrite Hd in Hfit.
              destruct (futures s !! jobId) as [w|], (jobs s !! jobId) as [j|]; try done.
              destruct w; simpl in *; try done.
              destruct Hfit as [?|[_ ?]]; [by left|done].
        -- simpl. intros jobId [= ->]. by rewrite lookup_insert_eq.
      * (* the item was dropped before *)
        rewrite (with_futures_same s k) by done.
        split; [|by left]. destruct Hs as [Hfit Hgr]. split.
        -- intros jobId. specialize (Hfit jobId). unfold fits_at in *. simpl.
           rewrite Hd in Hfit.
           destruct (futures s !! jobId) as [w|], (jobs s !! jobId) as [j|]; try done.
           destruct w; simpl in *; try done.
           destruct Hfit as [?|[_ ?]]; [by left|done].
        -- simpl. by intros jobId [= ->].
    + inversion Hstep; subst; clear Hstep. split; [|by left].
      apply consistent_dispatcher_move; [done| |done]. intros k'. by rewrite Hd.
  - (* CancelCommit *)
    destruct (dispatcher s) as [| |k] eqn:Hd; try done.
    inversion Hstep; subst; clear Hstep.
    pose proof (cons_granted s Hs k Hd) as Hk.
    destruct (fits_at_job s k Dropped Hs Hk) as (job & Hjob & Hw).
    destruct Hs as [Hfit Hgr]. unfold cancel_commit. split; [split|].
    + intros jobId. unfold fits_at. simpl.
      rewrite futures_update_job.
      destruct (decide (jobId = k)) as [->|Hne].
      * rewrite Hk, jobs_update_job_eq, Hjob. simpl. by left.
      * rewrite jobs_update_job_ne by done.
        specialize (Hfit jobId). unfold fits_at in Hfit. rewrite Hd in Hfit.
        destruct (futures s !! jobId) as [w|], (jobs s !! jobId) as [j|]; try done.
        destruct w; simpl in *; try done.
        destruct Hfit as [?|[_ ?]]; [by left|congruence].
    + done.
    + intros jobId. unfold state_at. simpl.
      destruct (decide (jobId = k)) as [->|Hne].
      * rewrite jobs_update_job_eq, Hjob. simpl.
        destruct Hw as [->|[-> _]]; [by left|right; constructor].
      * left. by rewrite jobs_update_job_ne.
  - (* Dequeue *)
    apply when_item_Some in Hstep as [Hk Heq]. inversion Heq; subst; clear Heq.
    split; [|by left].
    eapply (consistent_worker_move s _ k Queued Dequeued (λ j, j));
      [done|done|done|done|..]; worker_frame.
  - (* Enter *)
    apply when_item_Some in Hstep as [Hk Heq]. inversion Heq; subst; clear Heq.
    destruct (fits_at_job s k Dequeued Hs Hk) as (job & Hjob & Hw).
    unfold run_job_enter. rewrite Hjob. split.
    + eapply (consistent_worker_move s _ k Dequeued InHandler
                (λ j, set_started_at now (set_state Running j)));
        [done|done|done|done|..]; worker_frame.
    + intros jobId. unfold state_at. simpl.
      destruct (decide (jobId = k)) as [->|Hne].
      * right. rewrite jobs_update_job_eq, Hjob. simpl in *. rewrite Hw. constructor.
      * left. by rewrite jobs_update_job_ne.
  - (* Progress *)
    apply when_item_Some in Hstep as [Hk Heq]. inversion Heq; subst; clear Heq.
    destruct (fits_at_job s k InHandler Hs Hk) as (job & Hjob & Hw).
    unfold on_progress. split.
    + eapply (consistent_worker_move s _ k InHandler InHandler (set_progress percent msg));
        [done|done|done|done|..]; worker_frame.
      by rewrite insert_id.
    + intros jobId. left. unfold state_at.
      destruct (decide (jobId = k)) as [->|Hne].
      * by rewrite jobs_update_job_eq, Hjob.
      * by rewrite jobs_update_job_ne.
  - (* HandlerReturn *)
    apply when_item_Some in Hstep as [Hk Heq]. inversion Heq; subst; clear Heq.
    destruct (fits_at_job s k InHandler Hs Hk) as (job & Hjob & Hw).
    unfold run_job_success. split.
    + eapply (consistent_worker_move s _ k InHandler SendingResult
                (λ j, set_completed_at now (set_result r (set_state Done j))));
        [done|done|done|done|..]; worker_frame.
    + intros jobId. unfold state_at. simpl.
      destruct (decide (jobId = k)) as [->|Hne].
      * right. rewrite jobs_update_job_eq, Hjob. simpl in *. rewrite Hw. constructor.
      * left. by rewrite jobs_update_job_ne.
  - (* HandlerRaise *)
    apply when_item_Some in Hstep as [Hk Heq]. inversion Heq; subst; clear Heq.
    destruct (fits_at_job s k InHandler Hs Hk) as (job & Hjob & Hw).
    unfold run_job_failure. split.
    + eapply (consistent_worker_move s _ k InHandler SendingError
                (λ j, set_completed_at now (set_error error_msg (set_state Failed j))));
        [done|done|done|done|..]; worker_frame.
    + intros jobId. unfold state_at. simpl.
      destruct (decide (jobId = k)) as [->|Hne].
      * right. rewrite jobs_update_job_eq, Hjob. simpl in *. rewrite Hw. constructor.
      * left. by rewrite jobs_update_job_ne.
  - (* ResultEventRaise *)
    done.
  - (* Exit *)
    destruct (futures s !! k) as [w|] eqn:Hk; [|done].
    destruct w; try done.
    + destruct (result_event_serializable k s); [|done].
      inversion Hstep; subst; clear Hstep. split; [|by left].
      eapply (consistent_worker_move s _ k SendingResult Finished (λ j, j));
        [done|done|done|done|..]; worker_frame.
      intros. by left.
    + inversion Hstep; subst; clear Hstep. split; [|by left].
      eapply (consistent_worker_move s _ k SendingError Finished (λ j, j));
        [done|done|done|done|..]; worker_frame.
      intros. by right.
Qed.

(** Every move keeps the items and the job table consistent. *)
Lemma step_consistent e s s' o :
  consistent s → step e s = Some (s', o) → consistent s'.
Proof.
  intros Hs Hstep.
  destruct e as [uuid type payload now | jobId | jobId | | jobId | | now
                | k | k now | k percent msg | k r now | k error_msg now
                | k error_msg now | k];
    try (refine (proj1 (step_sound _ _ _ _ Hs _ Hstep)); exact I).
  simpl in Hstep.
  apply when_item_Some in Hstep as [Hk Heq]. inversion Heq; subst; clear Heq.
  unfold run_job_failure.
  eapply (consistent_worker_move s _ k SendingResult SendingError
            (λ j, set_completed_at now (set_error error_msg (set_state Failed j))));
    [done|done|done|done|..]; worker_frame.
Qed.


Lemma trace_consistent evs s tr :
  consistent s → trace evs s = Some tr → Forall consistent tr.
Proof.
  revert s tr. induction evs as [|e evs IH]; intros s tr Hs; simpl.
  - intros [= <-]. constructor; [done|constructor].
  - destruct (step e s) as [[s' o]|] eqn:Hstep; [|done].
    destruct (trace evs s') as [tr'|] eqn:Htr; simpl; [|done]. intros [= <-].
    constructor; [done|]. eapply IH; [|done]. by eapply step_consistent.
Qed.

Lemma changes_head {A} `{EqDecision A} (x : A) l : ∃ l', changes (x :: l) = x :: l'.
Proof.
  revert x. induction l as [|y l IH]; intros x; simpl; [by eexists|].
  destruct (decide (x = y)) as [->|]; [apply IH|by eexists].
Qed.







(** The slip that the amended C2 leaves out: the result event is sent
    inside the [try] block, so when it raises (here the OCR result holds a
    numpy integer that [json.dumps] rejects) the [except] branch runs and
    overwrites the terminal state done with failed.  With such a result
    [_run_job] cannot get past the result event any other way. *)
Example unsent_result_event_fails_done_job :
  let registry := JobRegistry.register "ocr.extract" "extract_text" JobRegistry.empty in
  let r := PDict [("text", PStr "INVOICE"); ("regions", PList [PObject "int32(12)"])] in
  let run := [JobsStart "j1" "ocr.extract" (PStr "scan.png") 0%Q; Dequeue "j1";
              Enter "j1" 1%Q; HandlerReturn "j1" r 2%Q] in
  history "j1" <$>
    trace (run ++ [ResultEventRaise "j1" "Object of type int32 is not JSON serializable" 3%Q;
                   Exit "j1"])
      (init registry)
  = Some [None; Some Pending; Some Running; Some Done; Some Failed]
  ∧ trace (run ++ [Exit "j1"]) (init registry) = None.
Proof. vm_compute. done. Qed.

(** C3: jobs.start with a type that has no registered handler raises the
    unknown-job-type error, which the dispatcher sends as an error
    response, and leaves the server, its job table included, as it was:
    no record exists for the generated identifier unless one did before. *)
Theorem unknown_job_type_rejected
    (uuid type : string) (payload : pyval) (now : Q) (s : t) :
  JobRegistry._handlers (job_registry s) !! type = None →
  JobRegistry.has_handler type (job_registry s) = false
  ∧ _handle_jobs_start uuid type payload now s
      = (s, Raise (ValueError ("Unknown job type: " +:+ type)))
  ∧ to_response (_handle_jobs_start uuid type payload now s).2
      = ErrorResponse (-32603) ("Internal error: " +:+ ("Unknown job type: " +:+ type))
  ∧ jobs (_handle_jobs_start uuid type payload now s).1 = jobs s.
Proof.
  intros Hnone.
  assert (JobRegistry.has_handler type (job_registry s) = false) as Hh.
  { unfold JobRegistry.has_handler. rewrite Hnone.
    apply bool_decide_eq_false_2. by intros [? ?]. }
  unfold _handle_jobs_start. rewrite Hh. simpl. done.
Qed.

Lemma unknown_job_type_rejected_witness :
  let s := init (JobRegistry.register "ocr.extract" "extract_text" JobRegistry.empty) in
  JobRegistry.has_handler "ocr.translate" (job_registry s) = false
  ∧ _handle_jobs_start "j1" "ocr.translate" PNone 0%Q s
      = (s, Raise (ValueError ("Unknown job type: " +:+ "ocr.translate")))
  ∧ to_response (_handle_jobs_start "j1" "ocr.translate" PNone 0%Q s).2
      = ErrorResponse (-32603)
          ("Internal error: " +:+ ("Unknown job type: " +:+ "ocr.translate"))
  ∧ jobs (_handle_jobs_start "j1" "ocr.translate" PNone 0%Q s).1 = jobs s.
Proof.
  intros s. apply (unknown_job_type_rejected "j1" "ocr.translate" PNone 0%Q s).
  vm_compute. reflexivity.
Defined.

(** C6, as amended: for a known job, a cancel request that no worker
    move interrupts
    - succeeds and moves the state from pending to cancelled when the
      job's work item is still in the queue (its future can be cancelled);
    - is refused with "Job is already running", changing nothing, when
      the state is still pending but a worker has taken the item;
    - is refused, changing nothing in the server, when the state is done,
      failed or cancelled. *)
Theorem cancel_by_state (jobId : string) (now : Q) (s : t) (job : Job) :
  jobs s !! jobId = Some job →
  (state job = Pending → futures s !! jobId = Some Queued →
     (_handle_jobs_cancel jobId now s).2 = Return CancelOk
     ∧ jobs (_handle_jobs_cancel jobId now s).1 !! jobId
         = Some (set_completed_at now (set_state Cancelled job))
     ∧ state_at jobId (_handle_jobs_cancel jobId now s).1 = Some Cancelled)
  ∧ (state job = Pending → futures s !! jobId = Some Dequeued →
     _handle_jobs_cancel jobId now s = (s, Return (CancelRefused "Job is already running")))
  ∧ (is_terminal (state job) = true →
     _handle_jobs_cancel jobId now s
       = (s, Return (CancelRefused ("Job already " +:+ state_str (state job))))
     ∧ success_of (CancelRefused ("Job already " +:+ state_str (state job))) = Some false).
Proof.
  intros Hjob. unfold _handle_jobs_cancel, cancel_check. rewrite Hjob.
  split; [|split].
  - intros Hst Hq. rewrite Hst. simpl.
    unfold cancel_future. rewrite Hq. simpl.
    unfold cancel_commit, state_at, update_job. simpl. rewrite Hjob. simpl.
    rewrite lookup_insert_eq. done.
  - intros Hst Hq. rewrite Hst. simpl.
    unfold cancel_future. rewrite Hq. simpl.
    by rewrite with_futures_same.
  - intros Hterm. by rewrite Hterm.
Qed.

Lemma cancel_by_state_witness :
  let registry := JobRegistry.register "ocr.extract" "extract_text" JobRegistry.empty in
  let s := (_handle_jobs_start "j1" "ocr.extract" PNone 0%Q (init registry)).1 in
  let job := new_Job "j1" "ocr.extract" 0%Q in
  let s' := (_handle_jobs_cancel "j1" 1%Q s).1 in
  ((_handle_jobs_cancel "j1" 1%Q s).2 = Return CancelOk
   ∧ jobs s' !! "j1" = Some (set_completed_at 1%Q (set_state Cancelled job))
   ∧ state_at "j1" s' = Some Cancelled)
  ∧ _handle_jobs_cancel "j1" 2%Q s' = (s', Return (CancelRefused "Job already cancelled")).
Proof.
  intros registry s job s'. split.
  - apply (proj1 (cancel_by_state "j1" 1%Q s job ltac:(vm_compute; reflexivity)));
      vm_compute; reflexivity.
  - apply (proj2 (proj2 (cancel_by_state "j1" 2%Q s'
                           (set_completed_at 1%Q (set_state Cancelled job))
                           ltac:(vm_compute; reflexivity)))).
    reflexivity.
Defined.

(** C6 as stated fails: after a worker has taken the work item and
    before [_run_job] has marked the job running, the state is still
    pending, and a cancel request is refused and leaves it pending. *)
Lemma cancel_by_state_counterexample :
  match exec [JobsStart "j1" "ocr.extract" PNone 0%Q; Dequeue "j1"]
          (init (JobRegistry.register "ocr.extract" "extract_text" JobRegistry.empty)) with
  | Some s =>
    state_at "j1" s = Some Pending
    ∧ (_handle_jobs_cancel "j1" 1%Q s).2 = Return (CancelRefused "Job is already running")
    ∧ success_of (CancelRefused "Job is already running") = Some false
    ∧ state_at "j1" (_handle_jobs_cancel "j1" 1%Q s).1 = Some Pending
  | None => False
  end.
Proof. vm_compute. repeat split; reflexivity. Qed.

(** C7: for a known job the result query returns normally (it does not
    raise): with the stored result and success true when the state is
    done, with the stored error text and success false when it is failed,
    and with success false and an explanation that the job is not complete
    when it is pending or running.  The stored result and error are the
    value the handler returned and the text of what it raised. *)
Theorem result_query_by_state (jobId : string) (s : t) (job : Job) :
  jobs s !! jobId = Some job →
  (state job = Done →
     _handle_jobs_result jobId s = Return (ResultData (result job))
     ∧ success_of (ResultData (result job)) = Some true)
  ∧ (state job = Failed →
     _handle_jobs_result jobId s = Return (ResultError (error job))
     ∧ success_of (ResultError (error job)) = Some false)
  ∧ (is_terminal (state job) = false →
     _handle_jobs_result jobId s
       = Return (ResultError (Some ("Job not complete: " +:+ state_str (state job))))
     ∧ to_response (_handle_jobs_result jobId s)
       = SuccessResponse
           (ResultError (Some ("Job not complete: " +:+ state_str (state job)))))
  ∧ (∀ r now, _handle_jobs_result jobId (run_job_success jobId r now s)
              = Return (ResultData r))
  ∧ (∀ msg now, _handle_jobs_result jobId (run_job_failure jobId msg now s)
                = Return (ResultError (Some msg))).
Proof.
  intros Hjob. unfold _handle_jobs_result.
  split; [|split; [|split; [|split]]].
  - intros Hst. by rewrite Hjob, Hst.
  - intros Hst. by rewrite Hjob, Hst.
  - intros Hst. rewrite Hjob. by destruct (state job).
  - intros r now. unfold run_job_success. simpl. by rewrite jobs_update_job_eq, Hjob.
  - intros msg now. unfold run_job_failure. simpl. by rewrite jobs_update_job_eq, Hjob.
Qed.

Lemma result_query_by_state_witness :
  let registry := JobRegistry.register "ocr.extract" "extract_text" JobRegistry.empty in
  let s := default (init registry)
             (exec [JobsStart "j1" "ocr.extract" PNone 0%Q; Dequeue "j1"; Enter "j1" 1%Q]
                (init registry)) in
  _handle_jobs_result "j1" s
    = Return (ResultError (Some ("Job not complete: " +:+ "running")))
  ∧ _handle_jobs_result "j1" (run_job_success "j1" (PStr "text") 2%Q s)
    = Return (ResultData (PStr "text"))
  ∧ _handle_jobs_result "j1" (run_job_failure "j1" "no such file" 2%Q s)
    = Return (ResultError (Some "no such file")).
Proof.
  intros registry s.
  destruct (result_query_by_state "j1" s
              (set_started_at 1%Q (set_state Running (new_Job "j1" "ocr.extract" 0%Q))))
    as (_ & _ & Hrunning & Hdone & Hfailed).
  - vm_compute. reflexivity.
  - split; [|split].
    + apply Hrunning. reflexivity.
    + apply Hdone.
    + apply Hfailed.
Defined.

End Scheduler.

(** ** The cache *)

Section CacheFacts.







(** C9, as amended: [Cache.delete] returns whether a file for the key
    existed before the call, and no file for the key is left; the RPC
    handler behind cache.delete drops that answer and replies
    [{"success": True}] whatever it was. *)
Theorem cache_delete_reports
    (sha256_hex32 : string → string) (key : string) (c : Cache.t) :
  (Cache.delete sha256_hex32 key c).1
    = bool_decide (is_Some (Cache.files c !! Cache._key_to_path sha256_hex32 key))
  ∧ Cache.files (Cache.delete sha256_hex32 key c).2
      !! Cache._key_to_path sha256_hex32 key = None
  ∧ Server._handle_cache_delete sha256_hex32 key c
      = ((Cache.delete sha256_hex32 key c).2, Server.Return Server.SuccessReply).
Proof.
  unfold Server._handle_cache_delete, Cache.delete.
  destruct (Cache.files c !! Cache._key_to_path sha256_hex32 key) as [f|] eqn:Hf; simpl.
  - split; [done|]. split; [apply lookup_delete_eq|done].
  - done.
Qed.

(** C9 as stated fails: deleting a key that has an entry and deleting one
    that has none get the same reply from the cache.delete handler, though
    [Cache.delete] tells them apart. *)
Lemma cache_delete_reports_counterexample :
  let h := λ key : string, key in
  let c0 := Cache.mk None ∅ in
  let c1 := Cache.set h "thumb" (PStr "cached") None 10%Q 10%Q c0 in
  (Cache.delete h "thumb" c1).1 = true
  ∧ (Cache.delete h "thumb" c0).1 = false
  ∧ (Server._handle_cache_delete h "thumb" c1).2 = Server.Return Server.SuccessReply
  ∧ (Server._handle_cache_delete h "thumb" c0).2 = Server.Return Server.SuccessReply.
Proof. vm_compute. done. Qed.

End CacheFacts.

(** * Further properties *)

(** ** The handler registry *)

Section RegistryFacts.
Import JobRegistry.

(** X1: after register(job_type, handler) the type has that handler,
    whatever it had before, and every other type has what it had. *)
Theorem register_then_lookup (job_type handler other : string) (r : t) :
  has_handler job_type (register job_type handler r) = true
  ∧ get_handler job_type (register job_type handler r) = Some handler
  ∧ get_handler other (register job_type handler r)
      = (if decide (other = job_type) then Some handler else get_handler other r)
  ∧ has_handler other (register job_type handler r)
      = (if decide (other = job_type) then true else has_handler other r).
Proof.
  unfold has_handler, get_handler, register. simpl.
  rewrite lookup_insert_eq. split; [done|]. split; [done|].
  destruct (decide (other = job_type)) as [->|Hne].
  - by rewrite lookup_insert_eq.
  - by rewrite lookup_insert_ne.
Qed.

(** X2: unregister(job_type) returns whether a handler was registered,
    leaves none for that type and leaves every other type alone; it undoes
    a register of a type that had no handler. *)
Theorem unregister_reports_and_removes (job_type handler other : string) (r : t) :
  (unregister job_type r).1 = has_handler job_type r
  ∧ has_handler job_type (unregister job_type r).2 = false
  ∧ get_handler other (unregister job_type r).2
      = (if decide (other = job_type) then None else get_handler other r)
  ∧ (has_handler job_type r = false →
     (unregister job_type r).2 = r
     ∧ (unregister job_type (register job_type handler r)).2 = r).
Proof.
  unfold has_handler, get_handler, unregister, register.
  destruct r as [hs]. simpl.
  destruct (hs !! job_type) as [h|] eqn:Hh; simpl.
  - rewrite lookup_delete_eq. split; [done|]. split; [done|]. split; [|done].
    destruct (decide (other = job_type)) as [->|Hne].
    + by rewrite lookup_delete_eq.
    + by rewrite lookup_delete_ne.
  - rewrite Hh. split; [done|]. split; [done|]. split.
    + destruct (decide (other = job_type)) as [->|Hne]; done.
    + intros _. split; [done|].
      rewrite lookup_insert_eq. simpl. f_equal.
      rewrite delete_insert_eq. by apply delete_id.
Qed.

Lemma unregister_reports_and_removes_witness :
  let r := register "ocr.extract" "extract_text" empty in
  (unregister "nsfw.classify" r).1 = has_handler "nsfw.classify" r
  ∧ has_handler "nsfw.classify" (unregister "nsfw.classify" r).2 = false
  ∧ get_handler "ocr.extract" (unregister "nsfw.classify" r).2
      = (if decide ("ocr.extract" = "nsfw.classify") then None
         else get_handler "ocr.extract" r)
  ∧ (unregister "nsfw.classify" r).2 = r
  ∧ (unregister "nsfw.classify" (register "nsfw.classify" "classify_image" r)).2 = r.
Proof.
  intros r.
  destruct (unregister_reports_and_removes "nsfw.classify" "classify_image" "ocr.extract" r)
    as (H1 & H2 & H3 & H4).
  split; [exact H1|]. split; [exact H2|]. split; [exact H3|].
  apply H4. vm_compute. reflexivity.
Defined.

(** X3: list_job_types lists each registered type once and nothing else;
    after clear it is empty and no type has a handler. *)
Theorem list_job_types_exact (job_type : string) (r : t) :
  NoDup (list_job_types r)
  ∧ (job_type ∈ list_job_types r ↔ has_handler job_type r = true)
  ∧ list_job_types (clear r) = []
  ∧ has_handler job_type (clear r) = false.
Proof.
  unfold list_job_types, has_handler, clear. simpl.
  split; [apply NoDup_fst_map_to_list|]. split.
  - rewrite bool_decide_eq_true. rewrite list_elem_of_fmap. split.
    + intros ([k h] & -> & Hin). apply elem_of_map_to_list in Hin. by eexists.
    + intros [h Hh]. exists (job_type, h). split; [done|]. by apply elem_of_map_to_list.
  - split; [by rewrite map_to_list_empty|].
    apply bool_decide_eq_false_2. rewrite lookup_empty. by intros [? ?].
Qed.

End RegistryFacts.

(** ** More on the model manager *)

Section ManagerFacts.
Import ModelManager.

Lemma run_snoc cs c w : run (cs ++ [c])%list w = (do_call c (run cs w)).2.
Proof. unfold run. by rewrite fold_left_app. Qed.

Lemma observe_last cs w : last (observe cs w) = Some (run cs w).
Proof.
  revert w. induction cs as [|c cs IH]; intros w; [done|].
  simpl. specialize (IH (do_call c w).2).
  destruct (observe cs (do_call c w).2) eqn:E; [done|]. exact IH.
Qed.

Lemma budget_inv_run limit cs w : budget_inv limit w → budget_inv limit (run cs w).
Proof.
  intros Hw. pose proof (budget_inv_observe limit cs w Hw) as Hall.
  pose proof (observe_last cs w) as Hlast.
  apply last_Some in Hlast as [l' Hl]. rewrite Hl in Hall.
  apply Forall_app in Hall as [_ Hall]. by inversion Hall.
Qed.

(** What a call does to the model table: one record rewritten, or
    nothing. *)
Lemma do_call_models c w :
  models (manager (do_call c w).2) = models (manager w)
  ∨ ∃ model_id model model',
      models (manager w) !! model_id = Some model
      ∧ models (manager (do_call c w).2) = <[model_id := model']> (models (manager w))
      ∧ m_id model' = m_id model ∧ m_name model' = m_name model
      ∧ m_type model' = m_type model ∧ m_size model' = m_size model
      ∧ (record_ok model_id model → record_ok model_id model').
Proof.
  destruct c as [model_id options now lib_ok | model_id cleanup_ok]; simpl.
  - unfold load_model.
    destruct (models (manager w) !! model_id) as [model|] eqn:Hm; [|by left].
    destruct (loaded model) eqn:Hld; [by left|].
    destruct (negb (_check_vram_budget (manager w) model_id)); [by left|].
    destruct (resolve_config (catalog w) model_id options) as [[[loader ref] cfg] catalog'].
    destruct (_load_model_instance loader model_id cfg lib_ok) as [inst|]; [|by left].
    right. exists model_id, model. eexists. split; [done|]. split; [done|].
    simpl. repeat (split; [done|]).
    intros [Hid _]. split; [done|]. simpl. split; [by eexists|done].
  - unfold unload_model.
    destruct (models (manager w) !! model_id) as [model|] eqn:Hm; [|by left].
    destruct (loaded model) eqn:Hld; simpl; [|by left].
    right. exists model_id, model. eexists. split; [done|]. split; [done|].
    simpl. repeat (split; [done|]).
    intros [Hid _]. by split.
Qed.

Lemma register_default_lookup catalog model_id :
  _register_default_models catalog !! model_id
  = (λ config, new_ModelInfo model_id (Catalog.c_name config) (Catalog.c_type config)
                 (Catalog.c_size config)) <$> catalog !! model_id.
Proof.
  unfold _register_default_models. rewrite map_lookup_imap.
  by destruct (catalog !! model_id).
Qed.

Lemma reached_records limit initial_catalog cs :
  (∀ model_id,
     match initial_catalog !! model_id,
           models (manager (run cs (__init__ limit initial_catalog))) !! model_id with
     | Some config, Some model =>
       record_ok model_id model
       ∧ m_name model = Catalog.c_name config
       ∧ m_type model = Catalog.c_type config
       ∧ m_size model = Catalog.c_size config
     | None, None => True
     | _, _ => False
     end)
  ∧ dom (models (manager (run cs (__init__ limit initial_catalog)))) = dom initial_catalog.
Proof.
  induction cs as [|c cs [IH Hdom]] using rev_ind.
  - unfold run. simpl. split.
    + intros model_id. rewrite register_default_lookup.
      destruct (initial_catalog !! model_id) as [config|]; simpl; [|done].
      by repeat split.
    + apply set_eq. intros k. rewrite !elem_of_dom, register_default_lookup.
      by rewrite fmap_is_Some.
  - rewrite run_snoc.
    destruct (do_call_models c (run cs (__init__ limit initial_catalog)))
      as [Heq|(k & model & model' & Hk & Heq & Hid & Hname & Htype & Hsize & Hok)];
      rewrite Heq; [done|].
    split.
    + intros model_id. destruct (decide (model_id = k)) as [->|Hne].
      * rewrite lookup_insert_eq. specialize (IH k). rewrite Hk in IH.
        destruct (initial_catalog !! k) as [config|]; [|done].
        destruct IH as (Hr & Hn & Ht & Hs).
        split; [by apply Hok|]. rewrite Hname, Htype, Hsize. done.
      * rewrite lookup_insert_ne by done. apply IH.
    + rewrite dom_insert_lookup_L; [done|by eexists].
Qed.

(** X4: every state reached from a fresh manager by load_model and
    unload_model calls knows exactly the models of the catalog, with the
    catalog's name, type and size; each record sits under its own id, holds
    an instance exactly while loaded, and has as memory_usage the model's
    estimate while loaded and zero otherwise.  list_models has one row per
    model. *)
Theorem model_records_stay_sound
    (limit : Z) (initial_catalog : gmap string Catalog.entry) (cs : list call)
    (model_id : string) :
  let w := run cs (__init__ limit initial_catalog) in
  match initial_catalog !! model_id, models (manager w) !! model_id with
  | Some config, Some model =>
    record_ok model_id model
    ∧ m_name model = Catalog.c_name config
    ∧ m_type model = Catalog.c_type config
    ∧ m_size model = Catalog.c_size config
  | None, None => True
  | _, _ => False
  end
  ∧ length (list_models w) = size initial_catalog.
Proof.
  simpl. destruct (reached_records limit initial_catalog cs) as [Hrec Hdom].
  split; [apply Hrec|].
  unfold list_models. rewrite length_fmap, length_map_to_list.
  by rewrite <- !size_dom, Hdom.
Qed.

(** X5: the calls that change nothing.  On an unknown id load_model and
    unload_model return False, get_model_status, get_model and
    ensure_loaded raise ValueError; on a loaded model load_model returns
    True whatever the options; on an unloaded model unload_model returns
    True.  In each case the manager and the catalog are as before. *)
Theorem calls_without_effect
    (model_id : string) (options : option pydict) (now now' : Q)
    (lib_ok cleanup_ok : bool) (w : world) :
  (models (manager w) !! model_id = None →
     load_model model_id options now lib_ok w = (false, w)
     ∧ unload_model model_id cleanup_ok w = (false, w)
     ∧ get_model_status model_id w = None
     ∧ get_model model_id now w
         = (inl (Raised "ValueError" ("Unknown model: " +:+ model_id)), w)
     ∧ ensure_loaded model_id options now now' lib_ok w
         = (inl (Raised "ValueError" ("Unknown model: " +:+ model_id)), w))
  ∧ (∀ model, models (manager w) !! model_id = Some model → loaded model = true →
       load_model model_id options now lib_ok w = (true, w))
  ∧ (∀ model, models (manager w) !! model_id = Some model → loaded model = false →
       unload_model model_id cleanup_ok w = (true, w)
       ∧ get_model model_id now w
           = (inl (Raised "ValueError" ("Model not loaded: " +:+ model_id)), w)).
Proof.
  unfold load_model, unload_model, get_model_status, get_model, ensure_loaded.
  split; [|split].
  - intros Hm. by rewrite Hm.
  - intros model Hm Hld. by rewrite Hm, Hld.
  - intros model Hm Hld. by rewrite Hm, Hld.
Qed.

Lemma calls_without_effect_witness :
  let w0 := __init__ Catalog.MAX_GPU_VRAM_BYTES Catalog.DEFAULT_MODELS in
  let w := (load_model "whisper-tiny" None 1%Q true w0).2 in
  let o : option pydict := Some {[ "model_size" := PStr "large" ]} in
  (load_model "whisper-huge" o 2%Q true w = (false, w)
   ∧ unload_model "whisper-huge" true w = (false, w)
   ∧ get_model_status "whisper-huge" w = None
   ∧ get_model "whisper-huge" 2%Q w
       = (inl (Raised "ValueError" ("Unknown model: " +:+ "whisper-huge")), w)
   ∧ ensure_loaded "whisper-huge" o 2%Q 3%Q true w
       = (inl (Raised "ValueError" ("Unknown model: " +:+ "whisper-huge")), w))
  ∧ load_model "whisper-tiny" o 2%Q true w = (true, w)
  ∧ (unload_model "whisper-base" true w = (true, w)
     ∧ get_model "whisper-base" 2%Q w
         = (inl (Raised "ValueError" ("Model not loaded: " +:+ "whisper-base")), w)).
Proof.
  intros w0 w o.
  split; [|split].
  - apply (proj1 (calls_without_effect "whisper-huge" o 2%Q 3%Q true true w)).
    vm_compute. reflexivity.
  - eapply (proj1 (proj2 (calls_without_effect "whisper-tiny" o 2%Q 3%Q true true w))).
    + vm_compute. reflexivity.
    + reflexivity.
  - eapply (proj2 (proj2 (calls_without_effect "whisper-base" o 2%Q 3%Q true true w))).
    + vm_compute. reflexivity.
    + reflexivity.
Defined.

(** X6: for a known, unloaded model whose loader does not raise,
    load_model returns True exactly when the estimate added to
    current_vram_usage does not exceed max_vram. *)
Theorem load_admitted_iff_within_budget
    (model_id : string) (options : option pydict) (now : Q) (lib_ok : bool)
    (w : world) (model : ModelInfo) (inst : Instance) :
  models (manager w) !! model_id = Some model →
  loaded model = false →
  load_attempt model_id options lib_ok w = Some inst →
  (load_model model_id options now lib_ok w).1 = true
  ↔ current_vram_usage (manager w) + _estimate_vram_usage model_id ≤ max_vram (manager w).
Proof.
  intros Hm Hld Hok.
  destruct (Z_gt_le_dec
              (current_vram_usage (manager w) + _estimate_vram_usage model_id)
              (max_vram (manager w))) as [Hover|Hfit].
  - rewrite (load_model_refused _ _ _ _ _ _ Hm Hld Hover). simpl. split; [done|lia].
  - rewrite (load_model_admitted _ _ _ _ _ _ Hm Hld Hfit).
    unfold load_attempt in Hok.
    destruct (resolve_config (catalog w) model_id options) as [[[loader ref] cfg] catalog'].
    rewrite Hok. simpl. split; [lia|done].
Qed.

Lemma load_admitted_iff_within_budget_witness :
  let w := __init__ 100000000 Catalog.DEFAULT_MODELS in
  (load_model "whisper-tiny" None 1%Q true w).1 = true
  ↔ current_vram_usage (manager w) + _estimate_vram_usage "whisper-tiny"
      ≤ max_vram (manager w).
Proof.
  intros w.
  apply (load_admitted_iff_within_budget "whisper-tiny" None 1%Q true w
           (new_ModelInfo "whisper-tiny" "Whisper Tiny" "whisper" 75000000)
           (WhisperModel (PStr "tiny"))).
  - vm_compute. reflexivity.
  - reflexivity.
  - vm_compute. reflexivity.
Defined.

(** X7: in a state reached from a fresh manager with a non-negative
    budget, a load_model that returns True followed by unload_model of the
    same model puts current_vram_usage back to what it was, leaves the
    model unloaded with no instance and no memory charged, and leaves every
    other record alone. *)
Theorem load_then_unload_restores_budget
    (limit : Z) (initial_catalog : gmap string Catalog.entry) (cs : list call)
    (model_id other : string) (options : option pydict) (now : Q)
    (lib_ok cleanup_ok : bool) (model : ModelInfo) :
  0 ≤ limit →
  let w := run cs (__init__ limit initial_catalog) in
  let w1 := (load_model model_id options now lib_ok w).2 in
  let w2 := (unload_model model_id cleanup_ok w1).2 in
  models (manager w) !! model_id = Some model →
  loaded model = false →
  (load_model model_id options now lib_ok w).1 = true →
  current_vram_usage (manager w1)
    = current_vram_usage (manager w) + _estimate_vram_usage model_id
  ∧ current_vram_usage (manager w2) = current_vram_usage (manager w)
  ∧ (∃ model2, models (manager w2) !! model_id = Some model2
               ∧ loaded model2 = false ∧ instance model2 = None
               ∧ memory_usage model2 = 0)
  ∧ (other ≠ model_id → models (manager w2) !! other = models (manager w) !! other).
Proof.
  intros Hl w w1 w2 Hm Hld Hok. subst w1 w2.
  assert (budget_inv limit w) as [_ Hsum Hch _]
    by (apply budget_inv_run, budget_inv_init, Hl).
  assert (0 ≤ current_vram_usage (manager w)) as H0
    by (rewrite Hsum; by apply loaded_cost_nonneg).
  destruct (Z_gt_le_dec
              (current_vram_usage (manager w) + _estimate_vram_usage model_id)
              (max_vram (manager w))) as [Hover|Hfit].
  { by rewrite (load_model_refused _ _ _ _ _ _ Hm Hld Hover) in Hok. }
  revert Hok. rewrite (load_model_admitted _ _ _ _ _ _ Hm Hld Hfit).
  destruct (resolve_config (catalog w) model_id options) as [[[loader ref] cfg] catalog'].
  destruct (_load_model_instance loader model_id cfg lib_ok) as [inst|]; [|done].
  intros _. simpl. split; [done|].
  unfold unload_model. simpl. rewrite lookup_insert_eq. simpl.
  split; [lia|]. split.
  - eexists. rewrite lookup_insert_eq. by split.
  - intros Hne. by rewrite !lookup_insert_ne.
Qed.

Lemma load_then_unload_restores_budget_witness :
  let w := run [Load "easyocr-en" None 1%Q true] (__init__ 1000000000 Catalog.DEFAULT_MODELS) in
  let w1 := (load_model "whisper-tiny" None 2%Q true w).2 in
  let w2 := (unload_model "whisper-tiny" true w1).2 in
  current_vram_usage (manager w1)
    = current_vram_usage (manager w) + _estimate_vram_usage "whisper-tiny"
  ∧ current_vram_usage (manager w2) = current_vram_usage (manager w)
  ∧ (∃ model2, models (manager w2) !! "whisper-tiny" = Some model2
               ∧ loaded model2 = false ∧ instance model2 = None
               ∧ memory_usage model2 = 0)
  ∧ models (manager w2) !! "easyocr-en" = models (manager w) !! "easyocr-en".
Proof.
  intros w w1 w2.
  destruct (load_then_unload_restores_budget 1000000000 Catalog.DEFAULT_MODELS
              [Load "easyocr-en" None 1%Q true] "whisper-tiny" "easyocr-en" None 2%Q true true
              (new_ModelInfo "whisper-tiny" "Whisper Tiny" "whisper" 75000000))
    as (H1 & H2 & H3 & H4).
  - lia.
  - vm_compute. reflexivity.
  - reflexivity.
  - vm_compute. reflexivity.
  - split; [exact H1|]. split; [exact H2|]. split; [exact H3|].
    apply H4. discriminate.
Defined.

Lemma unload_each_snoc cleanup_ok ids k w :
  unload_each cleanup_ok (ids ++ [k])%list w
  = match models (manager (unload_each cleanup_ok ids w)) !! k with
    | Some model =>
      if loaded model
      then (unload_model k (cleanup_ok k) (unload_each cleanup_ok ids w)).2
      else unload_each cleanup_ok ids w
    | None => unload_each cleanup_ok ids w
    end.
Proof. unfold unload_each. by rewrite fold_left_app. Qed.

(** The loop of [unload_all] is a sequence of [unload_model] calls, after
    which the models it went through are unloaded. *)
Lemma unload_each_spec cleanup_ok ids w :
  (∃ cs, unload_each cleanup_ok ids w = run cs w)
  ∧ catalog (unload_each cleanup_ok ids w) = catalog w
  ∧ ∀ k model, models (manager (unload_each cleanup_ok ids w)) !! k = Some model →
               k ∈ ids → loaded model = false.
Proof.
  induction ids as [|k0 ids ([cs Hcs] & Hcat & Hun)] using rev_ind.
  - split; [by exists []|]. split; [done|]. intros k model _ Hin. by apply elem_of_nil in Hin.
  - rewrite unload_each_snoc.
    destruct (models (manager (unload_each cleanup_ok ids w)) !! k0) as [m0|] eqn:Hk0.
    + destruct (loaded m0) eqn:Hld0.
      * split; [|split].
        -- exists (cs ++ [Unload k0 (cleanup_ok k0)])%list. by rewrite run_snoc, <- Hcs.
        -- unfold unload_model. rewrite Hk0, Hld0. simpl. exact Hcat.
        -- intros k model. unfold unload_model. rewrite Hk0, Hld0. simpl.
           destruct (decide (k = k0)) as [->|Hne].
           ++ rewrite lookup_insert_eq. by intros [= <-].
           ++ rewrite lookup_insert_ne by done. intros Hk Hin.
              apply elem_of_app in Hin as [Hin|Hin]; [by eapply Hun|].
              apply list_elem_of_singleton in Hin. done.
      * split; [by exists cs|]. split; [done|].
        intros k model Hk Hin.
        apply elem_of_app in Hin as [Hin|Hin]; [by eapply Hun|].
        apply list_elem_of_singleton in Hin. subst. congruence.
    + split; [by exists cs|]. split; [done|].
      intros k model Hk Hin.
      apply elem_of_app in Hin as [Hin|Hin]; [by eapply Hun|].
      apply list_elem_of_singleton in Hin. subst. congruence.
Qed.

(** X8: unload_all, from any state reached from a fresh manager with a
    non-negative budget, leaves every model of the catalog known and
    unloaded, with no instance and no memory charged, brings
    current_vram_usage to zero and does not touch the catalog, whatever the
    cleanup hooks do. *)
Theorem unload_all_frees_everything
    (limit : Z) (initial_catalog : gmap string Catalog.entry) (cs : list call)
    (cleanup_ok : string → bool) (model_id : string) :
  0 ≤ limit →
  let w := run cs (__init__ limit initial_catalog) in
  let w' := unload_all cleanup_ok w in
  current_vram_usage (manager w') = 0
  ∧ catalog w' = catalog w
  ∧ match initial_catalog !! model_id, models (manager w') !! model_id with
    | Some _, Some model =>
      loaded model = false ∧ instance model = None ∧ memory_usage model = 0
    | None, None => True
    | _, _ => False
    end.
Proof.
  intros Hl w w'.
  destruct (unload_each_spec cleanup_ok (map_to_list (models (manager w))).*1 w)
    as ([cs' Hcs'] & Hcat & Hun).
  fold (unload_all cleanup_ok w) in Hcs', Hcat, Hun. fold w' in Hcs', Hcat, Hun.
  assert (w' = run (cs ++ cs')%list (__init__ limit initial_catalog)) as Hw'.
  { rewrite Hcs'. unfold run, w. by rewrite fold_left_app. }
  assert (∀ k model, models (manager w') !! k = Some model → loaded model = false) as Hall.
  { intros k model Hk. apply (Hun k model Hk).
    destruct (reached_records limit initial_catalog (cs ++ cs')%list) as [_ Hdom'].
    destruct (reached_records limit initial_catalog cs) as [_ Hdom].
    rewrite <- Hw' in Hdom'. fold w in Hdom.
    assert (k ∈ dom (models (manager w))) as Hin.
    { rewrite Hdom, <- Hdom'. apply elem_of_dom. by eexists. }
    apply elem_of_dom in Hin as [m Hm].
    apply list_elem_of_fmap. exists (k, m). split; [done|]. by apply elem_of_map_to_list. }
  split; [|split; [done|]].
  - assert (budget_inv limit w') as [_ Hsum _ _]
      by (rewrite Hw'; apply budget_inv_run, budget_inv_init, Hl).
    rewrite Hsum. apply loaded_cost_unloaded. intros k model Hk. by eapply Hall.
  - destruct (reached_records limit initial_catalog (cs ++ cs')%list) as [Hrec _].
    specialize (Hrec model_id). rewrite <- Hw' in Hrec.
    destruct (initial_catalog !! model_id) as [config|],
             (models (manager w') !! model_id) as [model|] eqn:Hm; try done.
    destruct Hrec as ([_ Hr] & _). rewrite (Hall _ _ Hm) in Hr.
    destruct Hr. by rewrite (Hall _ _ Hm).
Qed.

Lemma unload_all_frees_everything_witness :
  let w := run [Load "easyocr-en" None 1%Q true; Load "whisper-small" None 2%Q true]
             (__init__ Catalog.MAX_GPU_VRAM_BYTES Catalog.DEFAULT_MODELS) in
  let w' := unload_all (λ _, false) w in
  current_vram_usage (manager w') = 0
  ∧ catalog w' = catalog w
  ∧ match Catalog.DEFAULT_MODELS !! "whisper-small", models (manager w') !! "whisper-small" with
    | Some _, Some model =>
      loaded model = false ∧ instance model = None ∧ memory_usage model = 0
    | None, None => True
    | _, _ => False
    end.
Proof.
  apply (unload_all_frees_everything Catalog.MAX_GPU_VRAM_BYTES Catalog.DEFAULT_MODELS
           [Load "easyocr-en" None 1%Q true; Load "whisper-small" None 2%Q true]
           (λ _, false) "whisper-small").
  vm_compute. discriminate.
Defined.

Lemma load_model_false_manager model_id options now lib_ok w :
  (load_model model_id options now lib_ok w).1 = false →
  manager (load_model model_id options now lib_ok w).2 = manager w.
Proof.
  unfold load_model.
  destruct (models (manager w) !! model_id) as [model|]; [|done].
  destruct (loaded model); [done|].
  destruct (negb (_check_vram_budget (manager w) model_id)); [done|].
  destruct (resolve_config (catalog w) model_id options) as [[[loader ref] cfg] catalog'].
  by destruct (_load_model_instance loader model_id cfg lib_ok).
Qed.

(** X9: ensure_loaded on a known model.  If the model is loaded it
    returns the stored instance and only stamps last_used.  If it is not
    and load_model fails (budget or loader), it raises RuntimeError and the
    manager is as before.  If it is not, the budget admits it and the
    loader returns an instance, it returns that instance, with the model
    loaded, stamped with the later clock reading, and its estimate added to
    current_vram_usage. *)
Theorem ensure_loaded_outcomes
    (model_id : string) (options : option pydict) (now now' : Q) (lib_ok : bool)
    (w : world) (model : ModelInfo) :
  models (manager w) !! model_id = Some model →
  (loaded model = true →
     ensure_loaded model_id options now now' lib_ok w
     = (inr (instance model),
        World (catalog w)
          (mk (max_vram (manager w)) (current_vram_usage (manager w))
              (<[model_id := set_last_used now' model]> (models (manager w))))))
  ∧ (loaded model = false →
     (load_model model_id options now lib_ok w).1 = false →
     (ensure_loaded model_id options now now' lib_ok w).1
       = inl (Raised "RuntimeError" ("Failed to load model: " +:+ model_id))
     ∧ manager (ensure_loaded model_id options now now' lib_ok w).2 = manager w)
  ∧ (∀ inst,
       loaded model = false →
       load_attempt model_id options lib_ok w = Some inst →
       current_vram_usage (manager w) + _estimate_vram_usage model_id
         ≤ max_vram (manager w) →
       (ensure_loaded model_id options now now' lib_ok w).1 = inr (Some inst)
       ∧ current_vram_usage (manager (ensure_loaded model_id options now now' lib_ok w).2)
           = current_vram_usage (manager w) + _estimate_vram_usage model_id
       ∧ ∃ model', models (manager (ensure_loaded model_id options now now' lib_ok w).2)
                     !! model_id = Some model'
                   ∧ loaded model' = true ∧ instance model' = Some inst
                   ∧ last_used model' = now').
Proof.
  intros Hm. unfold ensure_loaded. rewrite Hm. split; [|split].
  - intros Hld. rewrite Hld. simpl. by rewrite Hm.
  - intros Hld Hfail. rewrite Hld. simpl.
    pose proof (load_model_false_manager _ _ _ _ _ Hfail) as Hmgr.
    destruct (load_model model_id options now lib_ok w) as [ok w1]. simpl in *.
    by rewrite Hfail.
  - intros inst Hld Hok Hfit. rewrite Hld. simpl.
    rewrite (load_model_admitted _ _ _ _ _ _ Hm Hld Hfit).
    unfold load_attempt in Hok.
    destruct (resolve_config (catalog w) model_id options) as [[[loader ref] cfg] catalog'].
    rewrite Hok. simpl. rewrite lookup_insert_eq. simpl.
    split; [done|]. split; [done|].
    eexists. rewrite lookup_insert_eq. by split.
Qed.

Lemma ensure_loaded_outcomes_witness :
  let w0 := __init__ 600000000 Catalog.DEFAULT_MODELS in
  let w := (load_model "easyocr-en" None 1%Q true w0).2 in
  (∃ model, models (manager w) !! "easyocr-en" = Some model
            ∧ ensure_loaded "easyocr-en" None 2%Q 3%Q true w
              = (inr (Some (EasyOcrReader (PList [PStr "en"]))),
                 World (catalog w)
                   (mk (max_vram (manager w)) (current_vram_usage (manager w))
                       (<[ "easyocr-en" := set_last_used 3%Q model]> (models (manager w))))))
  ∧ ((ensure_loaded "whisper-tiny" None 2%Q 3%Q true w).1
       = inl (Raised "RuntimeError" ("Failed to load model: " +:+ "whisper-tiny"))
     ∧ manager (ensure_loaded "whisper-tiny" None 2%Q 3%Q true w).2 = manager w)
  ∧ ((ensure_loaded "whisper-tiny" None 2%Q 3%Q true w0).1
       = inr (Some (WhisperModel (PStr "tiny")))
     ∧ current_vram_usage (manager (ensure_loaded "whisper-tiny" None 2%Q 3%Q true w0).2)
         = current_vram_usage (manager w0) + _estimate_vram_usage "whisper-tiny"
     ∧ ∃ model', models (manager (ensure_loaded "whisper-tiny" None 2%Q 3%Q true w0).2)
                   !! "whisper-tiny" = Some model'
                 ∧ loaded model' = true
                 ∧ instance model' = Some (WhisperModel (PStr "tiny"))
                 ∧ last_used model' = 3%Q).
Proof.
  intros w0 w. split; [|split].
  - eexists. split; [vm_compute; reflexivity|].
    eapply (proj1 (ensure_loaded_outcomes "easyocr-en" None 2%Q 3%Q true w _
                     ltac:(vm_compute; reflexivity))).
    reflexivity.
  - apply (proj1 (proj2 (ensure_loaded_outcomes "whisper-tiny" None 2%Q 3%Q true w
                           (new_ModelInfo "whisper-tiny" "Whisper Tiny" "whisper" 75000000)
                           ltac:(vm_compute; reflexivity)))).
    + reflexivity.
    + vm_compute. reflexivity.
  - apply (proj2 (proj2 (ensure_loaded_outcomes "whisper-tiny" None 2%Q 3%Q true w0
                           (new_ModelInfo "whisper-tiny" "Whisper Tiny" "whisper" 75000000)
                           ltac:(vm_compute; reflexivity)))).
    + reflexivity.
    + vm_compute. reflexivity.
    + vm_compute. discriminate.
Defined.

(** X10: in every state reached from a fresh manager, get_model either
    raises and leaves everything as it was, or returns an actual instance
    of a loaded model and changes nothing but that model's last_used. *)
Theorem get_model_returns_live_instance
    (limit : Z) (initial_catalog : gmap string Catalog.entry) (cs : list call)
    (model_id : string) (now : Q) :
  let w := run cs (__init__ limit initial_catalog) in
  match (get_model model_id now w).1 with
  | inl _ => (get_model model_id now w).2 = w
  | inr x =>
    ∃ inst model,
      x = Some inst
      ∧ models (manager w) !! model_id = Some model
      ∧ loaded model = true
      ∧ instance model = Some inst
      ∧ (get_model model_id now w).2
        = World (catalog w)
            (mk (max_vram (manager w)) (current_vram_usage (manager w))
                (<[model_id := set_last_used now model]> (models (manager w))))
  end.
Proof.
  simpl. destruct (reached_records limit initial_catalog cs) as [Hrec _].
  specialize (Hrec model_id). unfold get_model.
  destruct (models (manager (run cs (__init__ limit initial_catalog))) !! model_id)
    as [model|] eqn:Hm; [|done].
  destruct (loaded model) eqn:Hld; simpl; [|done].
  destruct (initial_catalog !! model_id); [|done].
  destruct Hrec as ([_ Hr] & _). rewrite Hld in Hr. destruct Hr as [[inst Hinst] _].
  exists inst, model. by repeat split.
Qed.

(** X11: register_model never touches current_vram_usage.  In a state
    reached from a fresh manager with a non-negative budget, the counter
    after register_model is the sum charged to the loaded models plus what
    the replaced record was charged: registering over a loaded model leaves
    its estimate on the counter although no record carries it any more. *)
Theorem register_model_keeps_counter
    (limit : Z) (initial_catalog : gmap string Catalog.entry) (cs : list call)
    (model_id name model_type : string) (size : Z) :
  0 ≤ limit →
  let w := run cs (__init__ limit initial_catalog) in
  let w' := register_model model_id name model_type size w in
  current_vram_usage (manager w') = current_vram_usage (manager w)
  ∧ models (manager w') !! model_id = Some (new_ModelInfo model_id name model_type size)
  ∧ current_vram_usage (manager w')
    = loaded_cost (models (manager w'))
      + from_option charged 0 (models (manager w) !! model_id)
  ∧ (∀ model, models (manager w) !! model_id = Some model → loaded model = true →
       current_vram_usage (manager w')
       = loaded_cost (models (manager w')) + _estimate_vram_usage model_id).
Proof.
  intros Hl w w'.
  assert (budget_inv limit w) as [_ Hsum _ _]
    by (apply budget_inv_run, budget_inv_init, Hl).
  assert (current_vram_usage (manager w')
          = loaded_cost (models (manager w'))
            + from_option charged 0 (models (manager w) !! model_id)) as Hleak.
  { unfold w', register_model. simpl. rewrite Hsum.
    destruct (models (manager w) !! model_id) as [old|] eqn:Hold; simpl.
    - rewrite (loaded_cost_insert _ _ old) by done. unfold charged at 2. simpl. lia.
    - rewrite loaded_cost_insert_fresh by done. unfold charged at 1. simpl. lia. }
  split; [done|]. split; [apply lookup_insert_eq|]. split; [done|].
  intros model Hm Hld. rewrite Hleak, Hm. simpl.
  destruct (reached_records limit initial_catalog cs) as [Hrec _].
  specialize (Hrec model_id). fold w in Hrec. rewrite Hm in Hrec.
  destruct (initial_catalog !! model_id); [|done].
  destruct Hrec as ([_ Hr] & _). rewrite Hld in Hr. destruct Hr as [_ Hmem].
  unfold charged. by rewrite Hld, Hmem.
Qed.

Lemma register_model_keeps_counter_witness :
  let w := run [Load "whisper-small" None 1%Q true]
             (__init__ Catalog.MAX_GPU_VRAM_BYTES Catalog.DEFAULT_MODELS) in
  let w' := register_model "whisper-small" "Whisper Small v2" "whisper" 480000000 w in
  current_vram_usage (manager w') = current_vram_usage (manager w)
  ∧ models (manager w') !! "whisper-small"
    = Some (new_ModelInfo "whisper-small" "Whisper Small v2" "whisper" 480000000)
  ∧ current_vram_usage (manager w')
    = loaded_cost (models (manager w'))
      + from_option charged 0 (models (manager w) !! "whisper-small")
  ∧ current_vram_usage (manager w')
    = loaded_cost (models (manager w')) + _estimate_vram_usage "whisper-small".
Proof.
  intros w w'.
  destruct (register_model_keeps_counter Catalog.MAX_GPU_VRAM_BYTES Catalog.DEFAULT_MODELS
              [Load "whisper-small" None 1%Q true]
              "whisper-small" "Whisper Small v2" "whisper" 480000000)
    as (H1 & H2 & H3 & H4).
  - vm_compute. discriminate.
  - split; [exact H1|]. split; [exact H2|]. split; [exact H3|].
    eapply H4; [vm_compute; reflexivity|reflexivity].
Defined.

End ManagerFacts.

Section EngineManagerFacts.
Import EngineModelManager.

Lemma engine_run_snoc cs c w : run (cs ++ [c])%list w = (do_call c (run cs w)).2.
Proof. unfold run. by rewrite fold_left_app. Qed.

(** X12: the manager of ai-engine keeps no account of memory: in every
    state reached from a fresh one by load_model and unload_model calls,
    memory_usage is 0 for every model, loaded or not, and that is what
    get_model_status reports; and load_model on a known, unloaded model
    returns True exactly when the loader does not raise, however many
    models are loaded. *)
Theorem engine_manager_never_charges
    (initial_catalog : gmap string Catalog.entry) (cs : list call)
    (model_id : string) (options : option pydict) (now : Q) (lib_ok : bool) :
  let w := run cs (__init__ initial_catalog) in
  (∀ model, models w !! model_id = Some model →
     memory_usage model = 0
     ∧ ∃ stamp, get_model_status model_id w = Some (loaded model, 0, stamp))
  ∧ (∀ model, models w !! model_id = Some model → loaded model = false →
       (load_model model_id options now lib_ok w).1 = true
       ↔ is_Some (load_attempt model_id options lib_ok w)).
Proof.
  simpl.
  assert (∀ k model, models (run cs (__init__ initial_catalog)) !! k = Some model →
                     memory_usage model = 0) as Hzero.
  { induction cs as [|c cs IH] using rev_ind.
    - intros k model. unfold run. simpl. rewrite register_default_lookup.
      destruct (initial_catalog !! k); simpl; [|done]. by intros [= <-].
    - intros k model. rewrite engine_run_snoc.
      destruct c as [id o t ok | id ok]; simpl.
      + unfold load_model.
        destruct (models (run cs (__init__ initial_catalog)) !! id) as [m|] eqn:Hm;
          [|apply IH].
        destruct (loaded m); [apply IH|].
        destruct (resolve_config _ id o) as [[[loader ref] cfg] catalog'].
        destruct (_load_model_instance loader id cfg ok); simpl; [|apply IH].
        destruct (decide (k = id)) as [->|Hne].
        * rewrite lookup_insert_eq. intros [= <-]. simpl. by eapply IH.
        * rewrite lookup_insert_ne by done. apply IH.
      + unfold unload_model.
        destruct (models (run cs (__init__ initial_catalog)) !! id) as [m|] eqn:Hm;
          [|apply IH].
        destruct (loaded m); simpl; [|apply IH].
        destruct (decide (k = id)) as [->|Hne].
        * rewrite lookup_insert_eq. by intros [= <-].
        * rewrite lookup_insert_ne by done. apply IH. }
  split.
  - intros model Hm. split; [by eapply Hzero|].
    unfold get_model_status. rewrite Hm, (Hzero _ _ Hm). by eexists.
  - intros model Hm Hld. unfold load_model, load_attempt. rewrite Hm, Hld.
    destruct (resolve_config _ model_id options) as [[[loader ref] cfg] catalog'].
    destruct (_load_model_instance loader model_id cfg lib_ok); simpl.
    + split; [by eexists|done].
    + split; [done|]. by intros [? ?].
Qed.

Lemma engine_manager_never_charges_witness :
  let w := run [Load "whisper-medium" None 1%Q true; Load "whisper-small" None 2%Q true]
             (__init__ Catalog.DEFAULT_MODELS) in
  (∃ model, models w !! "whisper-medium" = Some model
            ∧ loaded model = true ∧ memory_usage model = 0
            ∧ ∃ stamp, get_model_status "whisper-medium" w = Some (loaded model, 0, stamp))
  ∧ ((load_model "easyocr-en" None 3%Q true w).1 = true
     ↔ is_Some (load_attempt "easyocr-en" None true w)).
Proof.
  intros w.
  destruct (engine_manager_never_charges Catalog.DEFAULT_MODELS
              [Load "whisper-medium" None 1%Q true; Load "whisper-small" None 2%Q true]
              "whisper-medium" None 3%Q true) as [Hzero _].
  destruct (engine_manager_never_charges Catalog.DEFAULT_MODELS
              [Load "whisper-medium" None 1%Q true; Load "whisper-small" None 2%Q true]
              "easyocr-en" None 3%Q true) as [_ Hload].
  split.
  - eexists. split; [vm_compute; reflexivity|]. split; [reflexivity|].
    apply Hzero. vm_compute. reflexivity.
  - eapply Hload; [vm_compute; reflexivity|reflexivity].
Defined.

End EngineManagerFacts.

(** ** More on the cache *)

Section CacheMore.

(** Splitting a directory by a test on the file contents. *)
Lemma filter_by_test_lookup {A} (b : A → bool) (m : gmap string A) (p : string) (keep : bool) :
  filter (λ kv : string * A, b kv.2 = keep) m !! p
  = match m !! p with
    | Some f => if bool_decide (b f = keep) then Some f else None
    | None => None
    end.
Proof.
  rewrite map_lookup_filter. destruct (m !! p) as [f|]; simpl; [|done].
  case_bool_decide.
  - by rewrite option_guard_True.
  - by rewrite option_guard_False.
Qed.

Lemma filter_by_test_size {A} (b : A → bool) (m : gmap string A) :
  (size (filter (λ kv : string * A, b kv.2 = true) m)
   + size (filter (λ kv : string * A, b kv.2 = false) m) = size m)%nat.
Proof.
  induction m as [|k x m Hk IH] using map_ind.
  - by rewrite !map_filter_empty, !map_size_empty.
  - rewrite !map_filter_insert. simpl.
    rewrite (delete_id m k Hk).
    assert (∀ keep, filter (λ kv : string * A, b kv.2 = keep) m !! k = None) as Hnone
      by (intros keep; rewrite filter_by_test_lookup; by rewrite Hk).
    rewrite map_size_insert_None by done.
    destruct (b x) eqn:Hb; repeat case_decide; try done;
      rewrite ?map_size_insert_None by done; lia.
Qed.

Lemma filter_by_test_twice {A} (b : A → bool) (m : gmap string A) :
  filter (λ kv : string * A, b kv.2 = true) (filter (λ kv : string * A, b kv.2 = false) m) = ∅
  ∧ filter (λ kv : string * A, b kv.2 = false) (filter (λ kv : string * A, b kv.2 = false) m)
    = filter (λ kv : string * A, b kv.2 = false) m.
Proof.
  split.
  - apply map_empty. intros p. rewrite !filter_by_test_lookup.
    destruct (m !! p) as [f|]; [|done].
    repeat case_bool_decide; congruence.
  - apply map_eq. intros p. rewrite !filter_by_test_lookup.
    destruct (m !! p) as [f|]; [|done].
    repeat case_bool_decide; congruence.
Qed.

(** X13: delete(key) leaves no file for the key and every other file as
    it was: a get of the key then finds nothing, a second delete returns
    False, and a delete right after a set returns True. *)
Theorem delete_then_absent
    (sha256_hex32 : string → string) (key path : string) (value : pyval)
    (ttl : option Z) (now now' t : Q) (c : Cache.t) :
  let c' := (Cache.delete sha256_hex32 key c).2 in
  Cache.files c' !! path
    = (if decide (path = Cache._key_to_path sha256_hex32 key) then None
       else Cache.files c !! path)
  ∧ Cache.get sha256_hex32 key t c' = (None, c')
  ∧ Cache.delete sha256_hex32 key c' = (false, c')
  ∧ (Cache.delete sha256_hex32 key (Cache.set sha256_hex32 key value ttl now now' c)).1 = true.
Proof.
  simpl.
  assert (Cache.files (Cache.delete sha256_hex32 key c).2
            !! Cache._key_to_path sha256_hex32 key = None) as Hgone.
  { unfold Cache.delete.
    destruct (Cache.files c !! Cache._key_to_path sha256_hex32 key) eqn:E; simpl;
      [apply lookup_delete_eq|done]. }
  split; [|split; [|split]].
  - destruct (decide (path = Cache._key_to_path sha256_hex32 key)) as [->|Hne]; [done|].
    unfold Cache.delete.
    destruct (Cache.files c !! Cache._key_to_path sha256_hex32 key); simpl; [|done].
    by rewrite lookup_delete_ne.
  - unfold Cache.get. by rewrite Hgone.
  - unfold Cache.delete at 1. by rewrite Hgone.
  - unfold Cache.delete, Cache.set. simpl. by rewrite lookup_insert_eq.
Qed.

(** X14: an entry set with no effective TTL (none given and no default,
    or 0) never expires: every later get returns it and leaves the cache
    as it is, and no prune removes it. *)
Theorem entry_without_ttl_never_expires
    (sha256_hex32 : string → string) (k : string) (v : pyval)
    (ttl : option Z) (now now' t : Q) (c : Cache.t) :
  json_serializable v = true →
  Cache.effective_ttl ttl c = None ∨ Cache.effective_ttl ttl c = Some 0 →
  let c1 := Cache.set sha256_hex32 k v ttl now now' c in
  let entry := Cache.EntryFile k v (py_int (now' * 1000)%Q) None in
  Cache.get sha256_hex32 k t c1 = (Some entry, c1)
  ∧ Cache.files (Cache.prune t c1).2 !! Cache._key_to_path sha256_hex32 k = Some entry.
Proof.
  intros Hser Httl. cbv zeta.
  assert (Cache.expiry ttl now c = None) as Hexp
    by (unfold Cache.expiry; by destruct Httl as [-> | ->]).
  assert (Cache.files (Cache.set sha256_hex32 k v ttl now now' c)
            !! Cache._key_to_path sha256_hex32 k
          = Some (Cache.EntryFile k v (py_int (now' * 1000)%Q) None)) as Hstored.
  { unfold Cache.set. cbn [Cache.files]. by rewrite lookup_insert_eq, Hser, Hexp. }
  split.
  - unfold Cache.get. by rewrite Hstored.
  - unfold Cache.prune. cbn [snd Cache.files].
    rewrite filter_by_test_lookup, Hstored. done.
Qed.

Lemma entry_without_ttl_never_expires_witness :
  let h := λ key : string, key in
  let c1 := Cache.set h "thumb" (PStr "cached") (Some 0) 10%Q 10%Q (Cache.mk (Some 60) ∅) in
  let entry := Cache.EntryFile "thumb" (PStr "cached") 10000 None in
  Cache.get h "thumb" 1000000%Q c1 = (Some entry, c1)
  ∧ Cache.files (Cache.prune 1000000%Q c1).2 !! "thumb.json" = Some entry.
Proof.
  apply (entry_without_ttl_never_expires (λ key : string, key) "thumb" (PStr "cached")
           (Some 0) 10%Q 10%Q 1000000%Q (Cache.mk (Some 60) ∅)).
  - reflexivity.
  - right. reflexivity.
Defined.

(** X15: prune() removes exactly the files that do not parse and the
    entries whose expiry has passed, and keeps every other file unchanged;
    the number it returns is the number of files removed; a second prune
    at the same clock reading removes nothing. *)
Theorem prune_removes_exactly_the_stale
    (now : Q) (c : Cache.t) (path : string) :
  let c' := (Cache.prune now c).2 in
  Cache.files c' !! path
    = match Cache.files c !! path with
      | Some f => if Cache.pruned now f then None else Some f
      | None => None
      end
  ∧ (Cache.prune now c).1 + Z.of_nat (size (Cache.files c')) = Z.of_nat (size (Cache.files c))
  ∧ Cache.default_ttl c' = Cache.default_ttl c
  ∧ Cache.prune now c' = (0, c').
Proof.
  simpl. unfold Cache.prune. cbn [fst snd Cache.files Cache.default_ttl].
  split; [|split; [|split]].
  - rewrite filter_by_test_lookup.
    destruct (Cache.files c !! path) as [f|]; [|done].
    by destruct (Cache.pruned now f).
  - pose proof (filter_by_test_size (Cache.pruned now) (Cache.files c)). lia.
  - done.
  - destruct (filter_by_test_twice (Cache.pruned now) (Cache.files c)) as [-> ->].
    by rewrite map_size_empty.
Qed.

(** X16: clear() with no prefix, or the empty one, removes every file and
    returns their number.  clear(prefix) removes exactly the files that do
    not parse and the entries whose key starts with the prefix, keeps every
    other file unchanged, and returns the number of files removed. *)
Theorem clear_removes_by_prefix
    (prefix : option string) (c : Cache.t) (path : string) :
  let c' := (Cache.clear prefix c).2 in
  Cache.files c' !! path
    = match Cache.files c !! path with
      | Some f => if Cache.cleared prefix f then None else Some f
      | None => None
      end
  ∧ (Cache.clear prefix c).1 + Z.of_nat (size (Cache.files c')) = Z.of_nat (size (Cache.files c))
  ∧ (prefix = None ∨ prefix = Some "" →
     Cache.files c' = ∅ ∧ (Cache.clear prefix c).1 = Z.of_nat (size (Cache.files c))).
Proof.
  simpl. unfold Cache.clear. cbn [fst snd Cache.files].
  assert (∀ p, filter (λ kv : string * Cache.file, Cache.cleared prefix kv.2 = false)
                 (Cache.files c) !! p
               = match Cache.files c !! p with
                 | Some f => if Cache.cleared prefix f then None else Some f
                 | None => None
                 end) as Hlook.
  { intros p. rewrite filter_by_test_lookup.
    destruct (Cache.files c !! p) as [f|]; [|done].
    by destruct (Cache.cleared prefix f). }
  pose proof (filter_by_test_size (Cache.cleared prefix) (Cache.files c)) as Hsize.
  split; [apply Hlook|]. split; [lia|].
  intros Hall.
  assert (filter (λ kv : string * Cache.file, Cache.cleared prefix kv.2 = false)
            (Cache.files c) = ∅) as Hempty.
  { apply map_empty. intros p. rewrite Hlook.
    destruct (Cache.files c !! p) as [f|]; [|done].
    by destruct Hall as [-> | ->]. }
  split; [done|]. rewrite Hempty, map_size_empty in Hsize. lia.
Qed.

Lemma clear_removes_by_prefix_witness :
  let h := λ key : string, key in
  let c0 := Cache.mk None ∅ in
  let c := Cache.set h "ocr:a" (PStr "x") None 1%Q 1%Q
             (Cache.set h "nsfw:b" (PStr "y") None 1%Q 1%Q c0) in
  (Cache.files (Cache.clear (Some "ocr:") c).2 !! "ocr:a.json" = None
   ∧ Cache.files (Cache.clear (Some "ocr:") c).2 !! "nsfw:b.json"
     = Some (Cache.EntryFile "nsfw:b" (PStr "y") 1000 None)
   ∧ (Cache.clear (Some "ocr:") c).1 = 1)
  ∧ Cache.files (Cache.clear None c).2 = ∅
  ∧ (Cache.clear None c).1 = Z.of_nat (size (Cache.files c)).
Proof.
  intros h c0 c. split.
  - destruct (clear_removes_by_prefix (Some "ocr:") c "ocr:a.json") as (H1 & _ & _).
    destruct (clear_removes_by_prefix (Some "ocr:") c "nsfw:b.json") as (H2 & _ & _).
    split; [rewrite H1; vm_compute; reflexivity|].
    split; [rewrite H2; vm_compute; reflexivity|].
    vm_compute. reflexivity.
  - apply (proj2 (proj2 (clear_removes_by_prefix None c "ocr:a.json"))). by left.
Defined.

(** X17: set() of a value that json cannot serialize leaves the key with
    a file that does not parse, whatever was stored before: the next get
    finds nothing, prune removes the file, and the cache.set handler has
    answered success all the same. *)
Theorem set_unserializable_loses_entry
    (sha256_hex32 : string → string) (k : string) (v : pyval)
    (ttl : option Z) (now now' t : Q) (c : Cache.t) :
  json_serializable v = false →
  let c1 := Cache.set sha256_hex32 k v ttl now now' c in
  Cache.files c1 !! Cache._key_to_path sha256_hex32 k = Some Cache.Corrupt
  ∧ Cache.get sha256_hex32 k t c1 = (None, c1)
  ∧ Cache.files (Cache.prune t c1).2 !! Cache._key_to_path sha256_hex32 k = None
  ∧ Server._handle_cache_set sha256_hex32 k v ttl now now' c
    = (c1, Server.Return Server.SuccessReply).
Proof.
  intros Hser. cbv zeta.
  assert (Cache.files (Cache.set sha256_hex32 k v ttl now now' c)
            !! Cache._key_to_path sha256_hex32 k = Some Cache.Corrupt) as Hstored.
  { unfold Cache.set. cbn [Cache.files]. by rewrite lookup_insert_eq, Hser. }
  split; [done|]. split; [|split; [|done]].
  - unfold Cache.get. by rewrite Hstored.
  - unfold Cache.prune. cbn [snd Cache.files].
    by rewrite filter_by_test_lookup, Hstored.
Qed.

Lemma set_unserializable_loses_entry_witness :
  let h := λ key : string, key in
  let c := Cache.set h "thumb" (PStr "cached") None 1%Q 1%Q (Cache.mk None ∅) in
  let c1 := Cache.set h "thumb" (PObject "<PIL.Image>") None 2%Q 2%Q c in
  (Cache.get h "thumb" 2%Q c).1 = Some (Cache.EntryFile "thumb" (PStr "cached") 1000 None)
  ∧ Cache.files c1 !! "thumb.json" = Some Cache.Corrupt
  ∧ Cache.get h "thumb" 3%Q c1 = (None, c1)
  ∧ Cache.files (Cache.prune 3%Q c1).2 !! "thumb.json" = None
  ∧ Server._handle_cache_set h "thumb" (PObject "<PIL.Image>") None 2%Q 2%Q c
    = (c1, Server.Return Server.SuccessReply).
Proof.
  intros h c c1. split; [vm_compute; reflexivity|].
  apply (set_unserializable_loses_entry h "thumb" (PObject "<PIL.Image>") None 2%Q 2%Q 3%Q c).
  reflexivity.
Defined.

(** X18: set() writes the file of its own key and no other.  A second set
    of the same key replaces the first altogether, as if the first had
    never happened; a key whose file is another one reads the same before
    and after. *)
Theorem set_last_write_wins
    (sha256_hex32 : string → string) (k k' : string) (v1 v2 : pyval)
    (ttl1 ttl2 : option Z) (t1 t1' t2 t2' t : Q) (c : Cache.t) :
  Cache.set sha256_hex32 k v2 ttl2 t2 t2' (Cache.set sha256_hex32 k v1 ttl1 t1 t1' c)
    = Cache.set sha256_hex32 k v2 ttl2 t2 t2' c
  ∧ (Cache._key_to_path sha256_hex32 k' ≠ Cache._key_to_path sha256_hex32 k →
     (Cache.get sha256_hex32 k' t (Cache.set sha256_hex32 k v1 ttl1 t1 t1' c)).1
       = (Cache.get sha256_hex32 k' t c).1).
Proof.
  split.
  - unfold Cache.set, Cache.expiry, Cache.effective_ttl. cbn [Cache.files Cache.default_ttl].
    by rewrite insert_insert_eq.
  - intros Hne. unfold Cache.get, Cache.set. cbn [Cache.files Cache.default_ttl].
    rewrite lookup_insert_ne by done.
    destruct (Cache.files c !! Cache._key_to_path sha256_hex32 k') as [[key v cr e|]|];
      [|done|done].
    by destruct (Cache.is_expired e (t * 1000)%Q).
Qed.

Lemma set_last_write_wins_witness :
  let h := λ key : string, key in
  let c := Cache.set h "nsfw:b" (PStr "y") None 1%Q 1%Q (Cache.mk (Some 60) ∅) in
  Cache.set h "ocr:a" (PInt 2) (Some 5) 3%Q 3%Q (Cache.set h "ocr:a" (PInt 1) None 2%Q 2%Q c)
    = Cache.set h "ocr:a" (PInt 2) (Some 5) 3%Q 3%Q c
  ∧ (Cache.get h "nsfw:b" 4%Q (Cache.set h "ocr:a" (PInt 1) None 2%Q 2%Q c)).1
    = (Cache.get h "nsfw:b" 4%Q c).1.
Proof.
  intros h c.
  destruct (set_last_write_wins h "ocr:a" "nsfw:b" (PInt 1) (PInt 2) None (Some 5)
              2%Q 2%Q 3%Q 3%Q 4%Q c) as [H1 H2].
  split; [exact H1|]. apply H2. vm_compute. discriminate.
Defined.

(** X19: the answers of cache.get over time.  A miss is final: after it,
    every cache.get of the key, at whatever clock reading, is a miss again
    and changes nothing, until the key is set.  A hit changes nothing, and
    the same request at any earlier clock reading would have been the same
    hit. *)
Theorem cache_get_miss_is_final
    (sha256_hex32 : string → string) (key : string) (t t' : Q) (c c1 : Cache.t)
    (r : Server.cache_reply) :
  Server._handle_cache_get sha256_hex32 key t c = (c1, r) →
  match r with
  | Server.CacheMiss =>
    Server._handle_cache_get sha256_hex32 key t' c1 = (c1, Server.CacheMiss)
  | Server.CacheHit v e =>
    c1 = c
    ∧ ((t' <= t)%Q →
       Server._handle_cache_get sha256_hex32 key t' c = (c, Server.CacheHit v e))
  | Server.CacheCleared _ => False
  end.
Proof.
  unfold Server._handle_cache_get, Cache.get.
  destruct (Cache.files c !! Cache._key_to_path sha256_hex32 key)
    as [[k v cr e|]|] eqn:Hfile.
  - destruct (Cache.is_expired e (t * 1000)%Q) eqn:Hexp.
    + intros [= <- <-]. cbn [Cache.files]. by rewrite lookup_delete_eq.
    + intros [= <- <-]. split; [done|]. intros Hle.
      assert (Cache.is_expired e (t' * 1000)%Q = false) as ->; [|done].
      unfold Cache.is_expired in *. destruct e as [e|]; [|done].
      destruct (e =? 0)%Z; [done|]. simpl in *.
      apply negb_false_iff in Hexp. apply negb_false_iff.
      apply Qle_bool_iff in Hexp. apply Qle_bool_iff. lra.
  - intros [= <- <-]. by rewrite ?Hfile.
  - intros [= <- <-]. by rewrite ?Hfile.
Qed.

Lemma cache_get_miss_is_final_witness :
  let h := λ key : string, key in
  let c := Cache.set h "thumb" (PStr "cached") (Some 60) 10%Q 10%Q (Cache.mk None ∅) in
  (Server._handle_cache_get h "thumb" 5%Q c = (c, Server.CacheHit (PStr "cached") (Some 70000)))
  ∧ Server._handle_cache_get h "thumb" 0%Q (Cache.mk None ∅)
    = (Cache.mk None ∅, Server.CacheMiss).
Proof.
  intros h c. split.
  - refine (proj2 (cache_get_miss_is_final h "thumb" 70%Q 5%Q c c
                     (Server.CacheHit (PStr "cached") (Some 70000)) _) _).
    + vm_compute. reflexivity.
    + vm_compute. discriminate.
  - refine (cache_get_miss_is_final h "thumb" 71%Q 0%Q c (Cache.mk None ∅)
              Server.CacheMiss _).
    vm_compute. reflexivity.
Defined.

(** X20: after cache.clear, a cache.get of a key whose file the clear
    removes (any file when there is no prefix, a file that does not parse,
    an entry whose stored key starts with the prefix), or which had no
    file, is a miss that changes nothing; and a second cache.clear with the
    same prefix reports 0 and changes nothing. *)
Theorem clear_then_get_misses
    (sha256_hex32 : string → string) (prefix : option string) (key : string)
    (t : Q) (c : Cache.t) :
  (∀ f, Cache.files c !! Cache._key_to_path sha256_hex32 key = Some f →
        Cache.cleared prefix f = true) →
  let c1 := (Server._handle_cache_clear prefix c).1 in
  Server._handle_cache_get sha256_hex32 key t c1 = (c1, Server.CacheMiss)
  ∧ Server._handle_cache_clear prefix c1 = (c1, Server.CacheCleared 0).
Proof.
  intros Hcl. cbv zeta.
  unfold Server._handle_cache_clear, Cache.clear. cbn [fst].
  split.
  - unfold Server._handle_cache_get, Cache.get. cbn [Cache.files].
    rewrite filter_by_test_lookup.
    destruct (Cache.files c !! Cache._key_to_path sha256_hex32 key) as [f|] eqn:Hf; [|done].
    by rewrite (Hcl f eq_refl).
  - cbn [Cache.files Cache.default_ttl].
    destruct (filter_by_test_twice (Cache.cleared prefix) (Cache.files c)) as [-> ->].
    by rewrite map_size_empty.
Qed.

Lemma clear_then_get_misses_witness :
  let h := λ key : string, key in
  let c := Cache.set h "ocr:a" (PStr "x") None 1%Q 1%Q
             (Cache.set h "nsfw:b" (PStr "y") None 1%Q 1%Q (Cache.mk None ∅)) in
  let c1 := (Server._handle_cache_clear (Some "ocr:") c).1 in
  Server._handle_cache_get h "ocr:a" 2%Q c1 = (c1, Server.CacheMiss)
  ∧ Server._handle_cache_clear (Some "ocr:") c1 = (c1, Server.CacheCleared 0).
Proof.
  intros h c.
  apply (clear_then_get_misses h (Some "ocr:") "ocr:a" 2%Q c).
  intros f Hf. vm_compute in Hf. injection Hf as <-. reflexivity.
Defined.


End CacheMore.

(** ** More on the scheduler *)

Section SchedulerMore.
Import Server.

Lemma is_Some_None_iff {A} (P : Prop) : ¬ P → (is_Some (@None A) ↔ P).
Proof. intros HP. split; [by intros [? ?]|done]. Qed.

Lemma is_Some_Some_iff {A} (x : A) (P : Prop) : P → (is_Some (Some x) ↔ P).
Proof. intros HP. split; [done|by eexists]. Qed.

Lemma step_registry e s s' o : step e s = Some (s', o) → job_registry s' = job_registry s.
Proof.
  destruct e as [uuid type payload now | jobId | jobId | | jobId | | now
                | k | k now | k percent msg | k r now | k error_msg now
                | k error_msg now | k];
    simpl; intros Hstep.
  - case_bool_decide; [|done]. apply when_idle_Some in Hstep as [_ Heq].
    unfold _handle_jobs_start in Heq. destruct (negb _); by inversion Heq.
  - apply when_idle_Some in Hstep as [_ Heq]. by inversion Heq.
  - apply when_idle_Some in Hstep as [_ Heq]. by inversion Heq.
  - apply when_idle_Some in Hstep as [_ Heq]. by inversion Heq.
  - apply when_idle_Some in Hstep as [_ Heq].
    destruct (cancel_check jobId s); by inversion Heq.
  - destruct (dispatcher s) as [|k|]; try done. unfold cancel_future in Hstep.
    destruct (futures s !! k) as [w|]; [|by inversion Hstep].
    destruct (future_cancel w) as [w' []]; by inversion Hstep.
  - destruct (dispatcher s) as [| |k]; try done. inversion Hstep; subst.
    simpl. unfold cancel_commit, update_job. by destruct (jobs s !! k).
  - apply when_item_Some in Hstep as [_ Heq]. by inversion Heq.
  - apply when_item_Some in Hstep as [_ Heq]. inversion Heq; subst.
    unfold run_job_enter, update_job. by destruct (jobs s !! k).
  - apply when_item_Some in Hstep as [_ Heq]. inversion Heq; subst.
    unfold on_progress, update_job. by destruct (jobs s !! k).
  - apply when_item_Some in Hstep as [_ Heq]. inversion Heq; subst.
    unfold run_job_success, update_job. by destruct (jobs s !! k).
  - apply when_item_Some in Hstep as [_ Heq]. inversion Heq; subst.
    unfold run_job_failure, update_job. by destruct (jobs s !! k).
  - apply when_item_Some in Hstep as [_ Heq]. inversion Heq; subst.
    unfold run_job_failure, update_job. by destruct (jobs s !! k).
  - destruct (futures s !! k) as [[]|]; try done.
    + destruct (result_event_serializable k s); by inversion Hstep.
    + by inversion Hstep.
Qed.

(** Rewriting one job keeps the table well stamped when the new record
    is. *)
Lemma well_stamped_update s s' k f :
  well_stamped s →
  job_registry s' = job_registry s →
  (∀ jobId, jobId ≠ k → jobs s' !! jobId = jobs s !! jobId) →
  jobs s' !! k = f <$> jobs s !! k →
  (∀ job, jobs s !! k = Some job → stamps_ok k job →
          stamps_ok k (f job) ∧ job_type (f job) = job_type job) →
  well_stamped s'.
Proof.
  intros Hs Hreg Hother Hk Hf jobId job Hjob. rewrite Hreg.
  destruct (decide (jobId = k)) as [->|Hne].
  - rewrite Hk in Hjob. destruct (jobs s !! k) as [old|] eqn:Hold; [|done].
    simpl in Hjob. injection Hjob as <-.
    destruct (Hs k old Hold) as [Hst Hh]. destruct (Hf old eq_refl Hst) as [Hst' Hty].
    split; [done|]. by rewrite Hty.
  - rewrite Hother in Hjob by done. by apply Hs.
Qed.

Ltac stamp_frame :=
  simpl; rewrite ?option_fmap_id;
  try done;
  try (intros; by apply jobs_update_job_ne);
  try apply jobs_update_job_eq.

(** Every move keeps the job table well stamped. *)
Lemma step_well_stamped e s s' o :
  consistent s → well_stamped s → step e s = Some (s', o) → well_stamped s'.
Proof.
  intros Hs Hst Hstep. pose proof (step_registry _ _ _ _ Hstep) as Hreg.
  destruct e as [uuid type payload now | jobId | jobId | | jobId | | now
                | k | k now | k percent msg | k r now | k error_msg now
                | k error_msg now | k];
    simpl in Hstep.
  - (* JobsStart *)
    case_bool_decide as Hfresh; [|done].
    apply when_idle_Some in Hstep as [_ Heq]. unfold _handle_jobs_start in Heq.
    destruct (JobRegistry.has_handler type (job_registry s)) eqn:Hh;
      simpl in Heq; inversion Heq; subst; clear Heq; [|done].
    intros jobId job. simpl.
    destruct (decide (jobId = uuid)) as [->|Hne].
    + rewrite lookup_insert_eq. intros [= <-]. split; [|done].
      unfold stamps_ok. simpl. split; [done|].
      split; [by apply is_Some_None_iff|].
      split; apply is_Some_None_iff; [by intros [|[|]]|done].
    + rewrite lookup_insert_ne by done. apply Hst.
  - apply when_idle_Some in Hstep as [_ Heq]. by inversion Heq; subst.
  - apply when_idle_Some in Hstep as [_ Heq]. by inversion Heq; subst.
  - apply when_idle_Some in Hstep as [_ Heq]. by inversion Heq; subst.
  - apply when_idle_Some in Hstep as [_ Heq].
    destruct (cancel_check jobId s); by inversion Heq; subst.
  - (* CancelFuture *)
    destruct (dispatcher s) as [|k|]; try done. unfold cancel_future in Hstep.
    destruct (futures s !! k) as [w|]; [|by inversion Hstep; subst].
    destruct (future_cancel w) as [w' []]; by inversion Hstep; subst.
  - (* CancelCommit *)
    destruct (dispatcher s) as [| |k] eqn:Hd; try done.
    inversion Hstep; subst; clear Hstep.
    pose proof (cons_granted s Hs k Hd) as Hk.
    destruct (fits_at_job s k Dropped Hs Hk) as (job0 & Hjob0 & Hw).
    eapply (well_stamped_update s _ k
              (λ j, set_completed_at now (set_state Cancelled j)));
      [done|done|..]; unfold cancel_commit; stamp_frame.
    intros job Hjob (Hid & Hc & Hsta & Herr). split; [|done].
    rewrite Hjob0 in Hjob. injection Hjob as <-.
    unfold stamps_ok. simpl. split; [done|].
    split; [by apply is_Some_Some_iff|].
    simpl in Hw. destruct Hw as [Hw|[Hw _]]; rewrite Hw in *; split.
    + rewrite Hsta. split; intros [|[|]]; done.
    + rewrite Herr. done.
    + rewrite Hsta. split; intros [|[|]]; done.
    + rewrite Herr. done.
  - (* Dequeue *)
    apply when_item_Some in Hstep as [_ Heq]. by inversion Heq; subst.
  - (* Enter *)
    apply when_item_Some in Hstep as [Hk Heq]. inversion Heq; subst; clear Heq.
    destruct (fits_at_job s k Dequeued Hs Hk) as (job0 & Hjob0 & Hw).
    unfold run_job_enter. rewrite Hjob0.
    eapply (well_stamped_update s _ k (λ j, set_started_at now (set_state Running j)));
      [done|..]; stamp_frame.
    all: try (unfold update_job; by rewrite Hjob0).
    intros job Hjob (Hid & Hc & Hsta & Herr). split; [|done].
    rewrite Hjob0 in Hjob. injection Hjob as <-. simpl in Hw. rewrite Hw in *.
    unfold stamps_ok. simpl. split; [done|]. split; [done|].
    split; [apply is_Some_Some_iff; by left|].
    rewrite Herr. done.
  - (* Progress *)
    apply when_item_Some in Hstep as [Hk Heq]. inversion Heq; subst; clear Heq.
    eapply (well_stamped_update s _ k (set_progress percent msg));
      [done|..]; unfold on_progress; stamp_frame.
    all: try (unfold update_job; by destruct (jobs s !! k)).
    all: try (intros job Hjob Hok; by split).
  - (* HandlerReturn *)
    apply when_item_Some in Hstep as [Hk Heq]. inversion Heq; subst; clear Heq.
    destruct (fits_at_job s k InHandler Hs Hk) as (job0 & Hjob0 & Hw).
    eapply (well_stamped_update s _ k
              (λ j, set_completed_at now (set_result r (set_state Done j))));
      [done|..]; unfold run_job_success; stamp_frame.
    all: try (unfold update_job; by rewrite Hjob0).
    intros job Hjob (Hid & Hc & Hsta & Herr). split; [|done].
    rewrite Hjob0 in Hjob. injection Hjob as <-. simpl in Hw. rewrite Hw in *.
    unfold stamps_ok. simpl. split; [done|].
    split; [by apply is_Some_Some_iff|]. split.
    + rewrite Hsta. split; intros _; [by right; left|by left].
    + rewrite Herr. done.
  - (* HandlerRaise *)
    apply when_item_Some in Hstep as [Hk Heq]. inversion Heq; subst; clear Heq.
    destruct (fits_at_job s k InHandler Hs Hk) as (job0 & Hjob0 & Hw).
    eapply (well_stamped_update s _ k
              (λ j, set_completed_at now (set_error error_msg (set_state Failed j))));
      [done|..]; unfold run_job_failure; stamp_frame.
    all: try (unfold update_job; by rewrite Hjob0).
    intros job Hjob (Hid & Hc & Hsta & Herr). split; [|done].
    rewrite Hjob0 in Hjob. injection Hjob as <-. simpl in Hw. rewrite Hw in *.
    unfold stamps_ok. simpl. split; [done|].
    split; [by apply is_Some_Some_iff|]. split.
    + rewrite Hsta. split; intros _; [by right; right|by left].
    + by apply is_Some_Some_iff.
  - (* ResultEventRaise *)
    apply when_item_Some in Hstep as [Hk Heq]. inversion Heq; subst; clear Heq.
    destruct (fits_at_job s k SendingResult Hs Hk) as (job0 & Hjob0 & Hw).
    eapply (well_stamped_update s _ k
              (λ j, set_completed_at now (set_error error_msg (set_state Failed j))));
      [done|..]; unfold run_job_failure; stamp_frame.
    all: try (unfold update_job; by rewrite Hjob0).
    intros job Hjob (Hid & Hc & Hsta & Herr). split; [|done].
    rewrite Hjob0 in Hjob. injection Hjob as <-. simpl in Hw. rewrite Hw in *.
    unfold stamps_ok. simpl. split; [done|].
    split; [by apply is_Some_Some_iff|]. split.
    + rewrite Hsta. split; intros _; [by right; right|by right; left].
    + by apply is_Some_Some_iff.
  - (* Exit *)
    destruct (futures s !! k) as [[]|]; try done.
    + destruct (result_event_serializable k s); by inversion Hstep; subst.
    + by inversion Hstep; subst.
Qed.

(** A move of a worker thread works on one item that is neither dropped
    nor finished, does not drop it, leaves the dispatcher where it is and
    touches no other job. *)
Lemma worker_step e s s' o :
  consistent s → step e s = Some (s', o) →
  match e with
  | Dequeue _ | Enter _ _ | Progress _ _ _ | HandlerReturn _ _ _
  | HandlerRaise _ _ _ | ResultEventRaise _ _ _ | Exit _ =>
    ∃ j w w',
      futures s !! j = Some w ∧ w ≠ Dropped ∧ w ≠ Finished ∧ w' ≠ Dropped
      ∧ dispatcher s' = dispatcher s
      ∧ futures s' = <[j := w']> (futures s)
      ∧ ∀ jobId, jobId ≠ j → jobs s' !! jobId = jobs s !! jobId
  | _ => True
  end.
Proof.
  intros Hs Hstep.
  destruct e as [uuid type payload now | jobId | jobId | | jobId | | now
                | k | k now | k percent msg | k r now | k error_msg now
                | k error_msg now | k];
    simpl in Hstep; try done.
  - apply when_item_Some in Hstep as [Hk Heq]. inversion Heq; subst.
    exists k, Queued, Dequeued. by repeat split.
  - apply when_item_Some in Hstep as [Hk Heq]. inversion Heq; subst.
    destruct (fits_at_job s k Dequeued Hs Hk) as (job0 & Hjob0 & _).
    exists k, Dequeued, InHandler. unfold run_job_enter. rewrite Hjob0.
    repeat split; try done; simpl.
    + apply dispatcher_update_job.
    + intros. by apply jobs_update_job_ne.
  - apply when_item_Some in Hstep as [Hk Heq]. inversion Heq; subst.
    exists k, InHandler, InHandler. unfold on_progress.
    repeat split; try done; simpl.
    + apply dispatcher_update_job.
    + rewrite futures_update_job. by rewrite insert_id.
    + intros. by apply jobs_update_job_ne.
  - apply when_item_Some in Hstep as [Hk Heq]. inversion Heq; subst.
    exists k, InHandler, SendingResult. unfold run_job_success.
    repeat split; try done; simpl.
    + apply dispatcher_update_job.
    + intros. by apply jobs_update_job_ne.
  - apply when_item_Some in Hstep as [Hk Heq]. inversion Heq; subst.
    exists k, InHandler, SendingError. unfold run_job_failure.
    repeat split; try done; simpl.
    + apply dispatcher_update_job.
    + intros. by apply jobs_update_job_ne.
  - apply when_item_Some in Hstep as [Hk Heq]. inversion Heq; subst.
    exists k, SendingResult, SendingError. unfold run_job_failure.
    repeat split; try done; simpl.
    + apply dispatcher_update_job.
    + intros. by apply jobs_update_job_ne.
  - destruct (futures s !! k) as [w|] eqn:Hk; [|done].
    destruct w; try done.
    + destruct (result_event_serializable k s); [|done]. inversion Hstep; subst.
      exists k, SendingResult, Finished. by repeat split.
    + inversion Hstep; subst. exists k, SendingError, Finished. by repeat split.
Qed.

(** Every move keeps a cancel request in progress in order. *)
Lemma step_cancel_in_progress e s s' o :
  consistent s → cancel_in_progress_ok s → step e s = Some (s', o) →
  cancel_in_progress_ok s'.
Proof.
  intros Hs Hc Hstep. pose proof (worker_step _ _ _ _ Hs Hstep) as Hworker.
  destruct e as [uuid type payload now | jobId | jobId | | jobId | | now
                | j | j now | j percent msg | j r now | j error_msg now
                | j error_msg now | j];
    try (destruct Hworker as (j' & w & w' & Hj & Hw1 & Hw2 & Hw' & Hd & Hf & Hother);
         intros k; rewrite Hd, Hf; split; intros Hk;
         [ destruct (decide (k = j')) as [->|Hne];
           [ rewrite lookup_insert_eq; congruence
           | rewrite lookup_insert_ne by done; by apply Hc ]
         | pose proof (cons_granted s Hs k Hk) as Hdrop;
           assert (k ≠ j') as Hne by congruence;
           unfold state_at; rewrite Hother by done; by apply Hc ]);
    simpl in Hstep; clear Hworker.
  - case_bool_decide; [|done]. apply when_idle_Some in Hstep as [Hidle Heq].
    unfold _handle_jobs_start in Heq.
    destruct (negb _); inversion Heq; subst; clear Heq; [done|].
    intros k. simpl. rewrite Hidle. by split.
  - apply when_idle_Some in Hstep as [_ Heq]. by inversion Heq; subst.
  - apply when_idle_Some in Hstep as [_ Heq]. by inversion Heq; subst.
  - apply when_idle_Some in Hstep as [_ Heq]. by inversion Heq; subst.
  - apply when_idle_Some in Hstep as [Hidle Heq]. unfold cancel_check in Heq.
    destruct (jobs s !! jobId) as [job|] eqn:Hjob; [|by inversion Heq; subst].
    destruct (is_terminal (state job)) eqn:Hterm; inversion Heq; subst; clear Heq; [done|].
    intros k. simpl. split; [|done]. intros [= <-] Hdrop.
    destruct (fits_at_job s jobId Dropped Hs Hdrop) as (job' & Hjob' & Hfit).
    rewrite Hjob in Hjob'. injection Hjob' as <-. simpl in Hfit.
    destruct Hfit as [Hst|[_ Hg]]; [by rewrite Hst in Hterm|congruence].
  - destruct (dispatcher s) as [|j|] eqn:Hd; try done.
    unfold cancel_future in Hstep.
    destruct (futures s !! j) as [w|] eqn:Hj.
    + pose proof (proj1 (Hc j) Hd) as Hnd.
      destruct (fits_at_job s j w Hs Hj) as (job & Hjob & Hfit).
      destruct w; simpl in Hstep; inversion Hstep; subst; clear Hstep; try done.
      intros k. simpl. split; [done|]. intros [= <-].
      unfold state_at. simpl. rewrite Hjob. simpl in *. by rewrite Hfit.
    + inversion Hstep; subst. done.
  - destruct (dispatcher s) as [| |j] eqn:Hd; try done.
    inversion Hstep; subst. done.
Qed.

(** Nothing changes the record of a job that is closed, and it stays
    closed. *)
Lemma step_closed k e s s' o :
  consistent s → closed k s → step e s = Some (s', o) →
  closed k s' ∧ jobs s' !! k = jobs s !! k.
Proof.
  intros Hs Hcl Hstep. pose proof (worker_step _ _ _ _ Hs Hstep) as Hworker.
  assert (∃ w, futures s !! k = Some w ∧ (w = Finished ∨ w = Dropped)) as (wk & Hwk & Hwk')
    by (destruct Hcl as [?|(? & _)]; eexists; split; eauto).
  destruct e as [uuid type payload now | jobId | jobId | | jobId | | now
                | j | j now | j percent msg | j r now | j error_msg now
                | j error_msg now | j];
    try (destruct Hworker as (j' & w & w' & Hj & Hw1 & Hw2 & Hw' & Hd & Hf & Hother);
         assert (k ≠ j') as Hne by (intros ->; destruct Hwk'; congruence);
         split; [|by apply Hother];
         unfold closed, state_at; rewrite Hd, Hf, lookup_insert_ne, Hother by done;
         exact Hcl);
    simpl in Hstep; clear Hworker.
  - case_bool_decide as Hfresh; [|done]. destruct Hfresh as [_ Hfresh].
    apply when_idle_Some in Hstep as [Hidle Heq].
    unfold _handle_jobs_start in Heq.
    destruct (negb _); inversion Heq; subst; clear Heq; [done|].
    assert (k ≠ uuid) as Hne by congruence.
    split; [|simpl; by rewrite lookup_insert_ne].
    unfold closed, state_at. simpl. rewrite !lookup_insert_ne by done. exact Hcl.
  - apply when_idle_Some in Hstep as [_ Heq]. by inversion Heq; subst.
  - apply when_idle_Some in Hstep as [_ Heq]. by inversion Heq; subst.
  - apply when_idle_Some in Hstep as [_ Heq]. by inversion Heq; subst.
  - apply when_idle_Some in Hstep as [Hidle Heq]. unfold cancel_check in Heq.
    destruct (jobs s !! jobId) as [job|] eqn:Hjob; [|by inversion Heq; subst].
    destruct (is_terminal (state job)) eqn:Hterm; inversion Heq; subst; clear Heq; [done|].
    split; [|done].
    assert (k ≠ jobId) as Hne.
    { intros ->. destruct (fits_at_job s jobId wk Hs Hwk) as (job' & Hjob' & Hfit).
      rewrite Hjob in Hjob'. injection Hjob' as <-.
      destruct Hwk' as [-> | ->]; simpl in Hfit.
      - destruct Hfit as [Hst|Hst]; by rewrite Hst in Hterm.
      - destruct Hfit as [Hst|[_ Hg]]; [by rewrite Hst in Hterm|congruence]. }
    unfold closed in *. simpl. unfold state_at in *. simpl.
    destruct Hcl as [?|(? & ? & ? & ?)]; [by left|right].
    repeat split; try done; congruence.
  - destruct (dispatcher s) as [|j|] eqn:Hd; try done.
    unfold cancel_future in Hstep.
    destruct (futures s !! j) as [w|] eqn:Hj.
    + assert (∀ w' d, (k = j → w' = wk) →
                (∀ j', d ≠ CancelChecked j') → (∀ j', d = CancelGranted j' → j' = j) →
                closed k (with_dispatcher d (with_futures (<[j := w']> (futures s)) s)))
        as Hkeep.
      { intros w' d Hsame Hd1 Hd2. unfold closed, state_at in *. simpl.
        destruct (decide (k = j)) as [->|Hne].
        - rewrite lookup_insert_eq, (Hsame eq_refl).
          destruct Hcl as [Hfin|(_ & _ & Hnc & _)]; [|congruence].
          left. congruence.
        - rewrite lookup_insert_ne by done.
          destruct Hcl as [?|(? & ? & ? & ?)]; [by left|right].
          repeat split; try done. intros Hg. apply Hd2 in Hg. congruence. }
      destruct w; simpl in Hstep; inversion Hstep; subst; clear Hstep;
        (split; [|done]); apply Hkeep; try done; try congruence;
        intros ->; rewrite Hj in Hwk; injection Hwk as <-;
        destruct Hwk' as [?|?]; try done;
        destruct Hcl as [?|(_ & _ & Hnc & _)]; congruence.
    + inversion Hstep; subst; clear Hstep. split; [|done].
      unfold closed, state_at in *. simpl.
      destruct Hcl as [?|(? & ? & ? & ?)]; [by left|right]. by repeat split.
  - destruct (dispatcher s) as [| |j] eqn:Hd; try done.
    inversion Hstep; subst; clear Hstep.
    pose proof (cons_granted s Hs j Hd) as Hdrop.
    assert (k ≠ j) as Hne.
    { intros ->. destruct Hcl as [?|(_ & _ & _ & Hng)]; congruence. }
    unfold cancel_commit. split; [|simpl; by apply jobs_update_job_ne].
    unfold closed, state_at. simpl.
    rewrite futures_update_job, jobs_update_job_ne by done.
    destruct Hcl as [?|(? & ? & ? & ?)]; [by left|right]. by repeat split.
Qed.

Lemma well_stamped_init registry : well_stamped (init registry).
Proof. intros jobId job. simpl. by rewrite lookup_empty. Qed.

Lemma cancel_in_progress_init registry : cancel_in_progress_ok (init registry).
Proof. intros k. by split. Qed.

(** What holds of every state of a run. *)
Lemma trace_invariants evs s tr :
  consistent s → well_stamped s → cancel_in_progress_ok s →
  trace evs s = Some tr →
  Forall (λ s', consistent s' ∧ well_stamped s' ∧ cancel_in_progress_ok s'
                ∧ job_registry s' = job_registry s) tr.
Proof.
  revert s tr. induction evs as [|e evs IH]; intros s tr Hs Hst Hc; simpl.
  - intros [= <-]. constructor; [done|constructor].
  - destruct (step e s) as [[s' o]|] eqn:Hstep; [|done].
    destruct (trace evs s') as [tr'|] eqn:Htr; simpl; [|done]. intros [= <-].
    constructor; [done|].
    eapply Forall_impl.
    + eapply IH; [| | |done].
      * by eapply step_consistent.
      * by eapply step_well_stamped.
      * by eapply step_cancel_in_progress.
    + simpl. intros s'' (? & ? & ? & Hr). split; [done|]. split; [done|]. split; [done|].
      rewrite Hr. eapply step_registry, Hstep.
Qed.

Lemma reached_invariants registry evs tr s :
  trace evs (init registry) = Some tr → last tr = Some s →
  consistent s ∧ well_stamped s ∧ cancel_in_progress_ok s ∧ job_registry s = registry.
Proof.
  intros Htr Hlast.
  pose proof (trace_invariants _ _ _ (consistent_init registry) (well_stamped_init registry)
                (cancel_in_progress_init registry) Htr) as Hall.
  apply last_Some in Hlast as [l' ->].
  apply Forall_app in Hall as [_ Hall]. by inversion Hall.
Qed.

Lemma trace_closed k evs s tr :
  consistent s → closed k s → trace evs s = Some tr →
  Forall (λ s', jobs s' !! k = jobs s !! k ∧ closed k s') tr.
Proof.
  revert s tr. induction evs as [|e evs IH]; intros s tr Hs Hcl; simpl.
  - intros [= <-]. constructor; [done|constructor].
  - destruct (step e s) as [[s' o]|] eqn:Hstep; [|done].
    destruct (trace evs s') as [tr'|] eqn:Htr; simpl; [|done]. intros [= <-].
    constructor; [done|].
    destruct (step_closed _ _ _ _ _ Hs Hcl Hstep) as [Hcl' Hsame].
    eapply Forall_impl.
    + eapply IH; [|done|done]. by eapply step_consistent.
    + simpl. intros s'' [Hj ?]. split; [|done]. by rewrite Hj.
Qed.

(** X21: in every state of every run of the server, each job record sits
    under its own identifier, is of a type that has a registered handler,
    has completed_at set exactly when its state is done, failed or
    cancelled, started_at set exactly when its state is running, done or
    failed, and error set exactly when its state is failed. *)
Theorem job_records_well_stamped
    (registry : JobRegistry.t) (evs : list event) (tr : list t) :
  trace evs (init registry) = Some tr →
  Forall (λ s,
      ∀ jobId job, jobs s !! jobId = Some job →
        JobRegistry.has_handler (job_type job) registry = true
        ∧ job_id job = jobId
        ∧ (is_Some (completed_at job) ↔ is_terminal (state job) = true)
        ∧ (is_Some (started_at job)
           ↔ state job = Running ∨ state job = Done ∨ state job = Failed)
        ∧ (is_Some (error job) ↔ state job = Failed))
    tr.
Proof.
  intros Htr.
  eapply Forall_impl.
  - exact (trace_invariants _ _ _ (consistent_init registry) (well_stamped_init registry)
             (cancel_in_progress_init registry) Htr).
  - simpl. intros s (_ & Hst & _ & Hreg) jobId job Hjob.
    destruct (Hst jobId job Hjob) as [Hok Hh]. rewrite Hreg in Hh. by split.
Qed.

Lemma job_records_well_stamped_witness :
  let registry := JobRegistry.register "ocr.extract" "extract_text" JobRegistry.empty in
  let evs := [JobsStart "j1" "ocr.extract" (PStr "a.png") 0%Q;
              JobsStart "j2" "ocr.extract" (PStr "b.png") 1%Q;
              Dequeue "j1"; JobsCancel "j2"; Enter "j1" 2%Q; CancelFuture;
              HandlerRaise "j1" "image_path is required" 3%Q; CancelCommit 4%Q] in
  let tr := default [] (trace evs (init registry)) in
  length tr = 9%nat
  ∧ Forall (λ s,
      ∀ jobId job, jobs s !! jobId = Some job →
        JobRegistry.has_handler (job_type job) registry = true
        ∧ job_id job = jobId
        ∧ (is_Some (completed_at job) ↔ is_terminal (state job) = true)
        ∧ (is_Some (started_at job)
           ↔ state job = Running ∨ state job = Done ∨ state job = Failed)
        ∧ (is_Some (error job) ↔ state job = Failed))
    tr.
Proof.
  intros registry evs tr. split; [reflexivity|].
  apply (job_records_well_stamped registry evs tr). reflexivity.
Defined.

(** X22: once nothing is left to do for a job (its [_run_job] has
    returned, or its work item was dropped and the job marked cancelled),
    no later move of the server, whatever the requests and the other jobs,
    changes anything in its record. *)
Theorem closed_job_record_is_frozen
    (registry : JobRegistry.t) (evs evs' : list event) (tr tr' : list t) (s : t)
    (k : string) :
  trace evs (init registry) = Some tr →
  last tr = Some s →
  closed k s →
  trace evs' s = Some tr' →
  Forall (λ s', jobs s' !! k = jobs s !! k ∧ closed k s') tr'.
Proof.
  intros Htr Hlast Hcl Htr'.
  destruct (reached_invariants _ _ _ _ Htr Hlast) as (Hs & _).
  by eapply trace_closed.
Qed.

Lemma closed_job_record_is_frozen_witness :
  let registry := JobRegistry.register "ocr.extract" "extract_text" JobRegistry.empty in
  let evs := [JobsStart "j1" "ocr.extract" (PStr "a.png") 0%Q; Dequeue "j1"; Enter "j1" 1%Q;
              HandlerReturn "j1" (PStr "text") 2%Q; Exit "j1"] in
  let evs' := [JobsCancel "j1"; JobsStart "j2" "ocr.extract" (PStr "b.png") 3%Q;
               Dequeue "j2"; Enter "j2" 4%Q; Progress "j2" 10%Q "Loading OCR model..."] in
  let tr := default [] (trace evs (init registry)) in
  let s := default (init registry) (last tr) in
  let tr' := default [] (trace evs' s) in
  length tr' = 6%nat
  ∧ Forall (λ s', jobs s' !! "j1" = jobs s !! "j1" ∧ closed "j1" s') tr'.
Proof.
  intros registry evs evs' tr s tr'. split; [reflexivity|].
  apply (closed_job_record_is_frozen registry evs evs' tr tr' s "j1");
    try reflexivity.
  left. reflexivity.
Defined.

(** X23: the only move that answers a cancel request with success is the
    one that marks the job.  In every run, when such an answer is sent the
    job was pending and is now cancelled, it never started, and from then
    on nothing is left to do for it: its record never changes again, so
    its handler never runs. *)
Theorem cancel_success_means_never_run
    (registry : JobRegistry.t) (evs evs' : list event) (tr tr' : list t) (s s' : t)
    (e : event) :
  trace evs (init registry) = Some tr →
  last tr = Some s →
  step e s = Some (s', Some (Return CancelOk)) →
  trace evs' s' = Some tr' →
  ∃ k now job',
    e = CancelCommit now
    ∧ dispatcher s = CancelGranted k
    ∧ state_at k s = Some Pending
    ∧ jobs s' !! k = Some job'
    ∧ state job' = Cancelled
    ∧ started_at job' = None
    ∧ completed_at job' = Some now
    ∧ Forall (λ s'', jobs s'' !! k = Some job' ∧ futures s'' !! k = Some Dropped) tr'.
Proof.
  intros Htr Hlast Hstep Htr'.
  destruct (reached_invariants _ _ _ _ Htr Hlast) as (Hs & Hst & Hc & _).
  pose proof (step_consistent _ _ _ _ Hs Hstep) as Hs'.
  pose proof (step_well_stamped _ _ _ _ Hs Hst Hstep) as Hst'.
  pose proof (worker_step _ _ _ _ Hs Hstep) as Hworker.
  destruct e as [uuid type payload now | jobId | jobId | | jobId | | now
                | j | j now | j percent msg | j r now | j error_msg now
                | j error_msg now | j];
    simpl in Hstep; clear Hworker.
  - case_bool_decide; [|done]. apply when_idle_Some in Hstep as [_ Heq].
    unfold _handle_jobs_start in Heq. destruct (negb _); by inversion Heq.
  - apply when_idle_Some in Hstep as [_ Heq]. unfold _handle_jobs_status in Heq.
    destruct (jobs s !! jobId); by inversion Heq.
  - apply when_idle_Some in Hstep as [_ Heq]. unfold _handle_jobs_result in Heq.
    destruct (jobs s !! jobId) as [job|]; [|by inversion Heq].
    destruct (state job); by inversion Heq.
  - apply when_idle_Some in Hstep as [_ Heq]. by inversion Heq.
  - apply when_idle_Some in Hstep as [_ Heq]. unfold cancel_check in Heq.
    destruct (jobs s !! jobId) as [job|]; [|by inversion Heq].
    destruct (is_terminal (state job)); by inversion Heq.
  - destruct (dispatcher s) as [|k|]; try done. unfold cancel_future in Hstep.
    destruct (futures s !! k) as [w|]; [|by inversion Hstep].
    destruct (future_cancel w) as [w' []]; by inversion Hstep.
  - destruct (dispatcher s) as [| |k] eqn:Hd; try done.
    inversion Hstep; subst; clear Hstep.
    pose proof (proj2 (Hc k) Hd) as Hpending.
    pose proof (cons_granted s Hs k Hd) as Hdrop.
    unfold state_at in Hpending.
    destruct (jobs s !! k) as [job|] eqn:Hjob; [|done].
    simpl in Hpending. injection Hpending as Hpending.
    destruct (Hst k job Hjob) as [(_ & _ & Hsta & _) _].
    assert (started_at job = None) as Hnot.
    { destruct (started_at job) as [q|] eqn:E; [|done].
      assert (state job = Running ∨ state job = Done ∨ state job = Failed) as Hx
        by (apply Hsta; by eexists).
      rewrite Hpending in Hx. by destruct Hx as [|[|]]. }
    assert (jobs (with_dispatcher Idle (cancel_commit k now s)) !! k
            = Some (set_completed_at now (set_state Cancelled job))) as Hjob'.
    { unfold cancel_commit. simpl. by rewrite jobs_update_job_eq, Hjob. }
    exists k, now, (set_completed_at now (set_state Cancelled job)).
    split; [done|]. split; [done|].
    split; [unfold state_at; by rewrite Hjob; simpl; rewrite Hpending|].
    split; [done|]. split; [done|]. split; [done|]. split; [done|].
    assert (closed k (with_dispatcher Idle (cancel_commit k now s))) as Hcl.
    { right. unfold state_at. rewrite Hjob'. unfold cancel_commit. simpl.
      rewrite futures_update_job. by repeat split. }
    pose proof (trace_closed k _ _ _ Hs' Hcl Htr') as Hall.
    pose proof (trace_consistent _ _ _ Hs' Htr') as Hcons.
    rewrite Forall_forall in Hall, Hcons. apply Forall_forall. intros s'' Hin.
    destruct (Hall s'' Hin) as [Hrec Hcl'']. split; [by rewrite Hrec|].
    destruct Hcl'' as [Hfin|(? & _)]; [|done].
    destruct (fits_at_job s'' k Finished (Hcons s'' Hin) Hfin) as (job2 & Hjob2 & Hfit).
    rewrite Hrec, Hjob' in Hjob2. injection Hjob2 as <-. simpl in Hfit. by destruct Hfit.
  - apply when_item_Some in Hstep as [_ Heq]. by inversion Heq.
  - apply when_item_Some in Hstep as [_ Heq]. by inversion Heq.
  - apply when_item_Some in Hstep as [_ Heq]. by inversion Heq.
  - apply when_item_Some in Hstep as [_ Heq]. by inversion Heq.
  - apply when_item_Some in Hstep as [_ Heq]. by inversion Heq.
  - apply when_item_Some in Hstep as [_ Heq]. by inversion Heq.
  - destruct (futures s !! j) as [[]|]; try done.
    all: try (destruct (result_event_serializable j s)); by inversion Hstep.
Qed.

Lemma cancel_success_means_never_run_witness :
  let registry := JobRegistry.register "ocr.extract" "extract_text" JobRegistry.empty in
  let evs := [JobsStart "j1" "ocr.extract" (PStr "a.png") 0%Q; JobsCancel "j1"; CancelFuture] in
  let evs' := [JobsStatus "j1"; JobsCancel "j1";
               JobsStart "j2" "ocr.extract" (PStr "b.png") 6%Q; Dequeue "j2"] in
  let tr := default [] (trace evs (init registry)) in
  let s := default (init registry) (last tr) in
  let s' := default s (fst <$> step (CancelCommit 5%Q) s) in
  let tr' := default [] (trace evs' s') in
  length tr' = 5%nat
  ∧ ∃ k now job',
      CancelCommit 5%Q = CancelCommit now
      ∧ dispatcher s = CancelGranted k
      ∧ state_at k s = Some Pending
      ∧ jobs s' !! k = Some job'
      ∧ state job' = Cancelled
      ∧ started_at job' = None
      ∧ completed_at job' = Some now
      ∧ Forall (λ s'', jobs s'' !! k = Some job' ∧ futures s'' !! k = Some Dropped) tr'.
Proof.
  intros registry evs evs' tr s s' tr'. split; [reflexivity|].
  apply (cancel_success_means_never_run registry evs evs' tr tr' s s' (CancelCommit 5%Q));
    reflexivity.
Defined.

(** X24: jobs.start with a registered type and a fresh identifier adds
    exactly one job: pending, with progress 0, no message, result or
    error, created at the clock reading and not yet started or completed;
    its work item is queued; every other job is untouched; the reply
    carries the identifier; and a status query right after reports pending
    with progress 0 and no timestamps. *)
Theorem start_creates_pending_job
    (uuid type other : string) (payload : pyval) (now : Q) (s : t) :
  JobRegistry.has_handler type (job_registry s) = true →
  jobs s !! uuid = None →
  let r := _handle_jobs_start uuid type payload now s in
  r.2 = Return (JobIdReply uuid)
  ∧ jobs r.1 !! uuid = Some (mkJob uuid type Pending 0%Q "" PNone None now None None)
  ∧ futures r.1 !! uuid = Some Queued
  ∧ size (jobs r.1) = S (size (jobs s))
  ∧ (other ≠ uuid → jobs r.1 !! other = jobs s !! other
                    ∧ futures r.1 !! other = futures s !! other)
  ∧ _handle_jobs_status uuid r.1 = Return (StatusReply Pending 0%Q None None None)
  ∧ _handle_jobs_result uuid r.1
    = Return (ResultError (Some ("Job not complete: " +:+ "pending"))).
Proof.
  intros Hh Hfresh. simpl. unfold _handle_jobs_start. rewrite Hh. simpl.
  split; [done|]. split; [apply lookup_insert_eq|]. split; [apply lookup_insert_eq|].
  split; [by apply map_size_insert_None|]. split.
  - intros Hne. by rewrite !lookup_insert_ne.
  - unfold _handle_jobs_status, _handle_jobs_result. simpl.
    by rewrite lookup_insert_eq.
Qed.

Lemma start_creates_pending_job_witness :
  let registry := JobRegistry.register "ocr.extract" "extract_text" JobRegistry.empty in
  let s := (_handle_jobs_start "j1" "ocr.extract" PNone 0%Q (init registry)).1 in
  let r := _handle_jobs_start "j2" "ocr.extract" (PStr "b.png") 1%Q s in
  r.2 = Return (JobIdReply "j2")
  ∧ jobs r.1 !! "j2" = Some (mkJob "j2" "ocr.extract" Pending 0%Q "" PNone None 1%Q None None)
  ∧ futures r.1 !! "j2" = Some Queued
  ∧ size (jobs r.1) = S (size (jobs s))
  ∧ (jobs r.1 !! "j1" = jobs s !! "j1" ∧ futures r.1 !! "j1" = futures s !! "j1")
  ∧ _handle_jobs_status "j2" r.1 = Return (StatusReply Pending 0%Q None None None)
  ∧ _handle_jobs_result "j2" r.1
    = Return (ResultError (Some ("Job not complete: " +:+ "pending"))).
Proof.
  intros registry s r.
  destruct (start_creates_pending_job "j2" "ocr.extract" "j1" (PStr "b.png") 1%Q s)
    as (H1 & H2 & H3 & H4 & H5 & H6 & H7); [reflexivity|reflexivity|].
  split; [exact H1|]. split; [exact H2|]. split; [exact H3|]. split; [exact H4|].
  split; [apply H5; discriminate|]. split; [exact H6|exact H7].
Defined.

(** X25: in every state a run of the server reaches, jobs.list returns
    one row per job, with the job's identifier, type, state and progress,
    and no identifier twice. *)
Theorem jobs_list_rows
    (registry : JobRegistry.t) (evs : list event) (tr : list t) (s : t)
    (row : string * string * job_state * Q) :
  trace evs (init registry) = Some tr →
  last tr = Some s →
  ∃ rows,
    _handle_jobs_list s = Return (ListReply rows)
    ∧ length rows = size (jobs s)
    ∧ NoDup ((λ r : string * string * job_state * Q, r.1.1.1) <$> rows)
    ∧ (row ∈ rows
       ↔ ∃ job, jobs s !! row.1.1.1 = Some job
                ∧ row = (row.1.1.1, job_type job, state job, progress job)).
Proof.
  intros Htr Hlast.
  destruct (reached_invariants _ _ _ _ Htr Hlast) as (_ & Hst & _).
  eexists. split; [reflexivity|].
  assert (∀ kv : string * Job, kv ∈ map_to_list (jobs s) → job_id kv.2 = kv.1) as Hid.
  { intros [k job] Hin. apply elem_of_map_to_list in Hin.
    by destruct (Hst k job Hin) as [(? & _) _]. }
  split; [by rewrite length_fmap, length_map_to_list|]. split.
  - rewrite <- list_fmap_compose.
    rewrite (list_fmap_ext _ fst (map_to_list (jobs s))).
    + apply NoDup_fst_map_to_list.
    + intros i kv Hkv. simpl. apply Hid. by eapply list_elem_of_lookup_2.
  - rewrite list_elem_of_fmap. split.
    + intros ([k job] & -> & Hin). pose proof (Hid _ Hin) as Hk. simpl in *.
      apply elem_of_map_to_list in Hin. exists job. rewrite Hk. by split.
    + intros (job & Hjob & Hrow). exists (row.1.1.1, job). split.
      * simpl. rewrite Hrow. simpl.
        by destruct (Hst _ job Hjob) as [(-> & _) _].
      * by apply elem_of_map_to_list.
Qed.

Lemma jobs_list_rows_witness :
  let registry := JobRegistry.register "ocr.extract" "extract_text" JobRegistry.empty in
  let evs := [JobsStart "j1" "ocr.extract" (PStr "a.png") 0%Q;
              JobsStart "j2" "ocr.extract" (PStr "b.png") 1%Q;
              Dequeue "j1"; Enter "j1" 2%Q; Progress "j1" 30%Q "Processing image..."] in
  let tr := default [] (trace evs (init registry)) in
  let s := default (init registry) (last tr) in
  ∃ rows,
    _handle_jobs_list s = Return (ListReply rows)
    ∧ length rows = size (jobs s)
    ∧ NoDup ((λ r : string * string * job_state * Q, r.1.1.1) <$> rows)
    ∧ (("j1", "ocr.extract", Running, 30%Q) ∈ rows
       ↔ ∃ job, jobs s !! "j1" = Some job
                ∧ ("j1", "ocr.extract", Running, 30%Q)
                  = ("j1", job_type job, state job, progress job)).
Proof.
  intros registry evs tr s.
  apply (jobs_list_rows registry evs tr s ("j1", "ocr.extract", Running, 30%Q));
    reflexivity.
Defined.

(** X26: a progress report is taken only from a handler that is running,
    that is while the job's state is running; it stores the percentage and
    the message exactly as given, whatever their value, changes nothing
    else in the job, touches no other job, and sends no response. *)
Theorem progress_stored_verbatim
    (registry : JobRegistry.t) (evs : list event) (tr : list t) (s s' : t)
    (k other : string) (percent : Q) (msg : string) (o : option (outcome reply)) :
  trace evs (init registry) = Some tr →
  last tr = Some s →
  step (Progress k percent msg) s = Some (s', o) →
  o = None
  ∧ state_at k s = Some Running
  ∧ (∃ job, jobs s !! k = Some job
            ∧ jobs s' !! k
              = Some (mkJob (job_id job) (job_type job) Running percent msg (result job)
                        (error job) (created_at job) (started_at job) (completed_at job)))
  ∧ (other ≠ k → jobs s' !! other = jobs s !! other)
  ∧ futures s' = futures s
  ∧ dispatcher s' = dispatcher s.
Proof.
  intros Htr Hlast Hstep.
  destruct (reached_invariants _ _ _ _ Htr Hlast) as (Hs & _).
  simpl in Hstep. apply when_item_Some in Hstep as [Hk Heq].
  inversion Heq; subst; clear Heq.
  destruct (fits_at_job s k InHandler Hs Hk) as (job & Hjob & Hfit). simpl in Hfit.
  unfold on_progress. split; [done|].
  split; [unfold state_at; by rewrite Hjob; simpl; rewrite Hfit|].
  split; [|split; [|split]].
  - exists job. split; [done|]. rewrite jobs_update_job_eq, Hjob. simpl.
    unfold set_progress. by rewrite Hfit.
  - intros Hne. by apply jobs_update_job_ne.
  - apply futures_update_job.
  - apply dispatcher_update_job.
Qed.

Lemma progress_stored_verbatim_witness :
  let registry := JobRegistry.register "ocr.extract" "extract_text" JobRegistry.empty in
  let evs := [JobsStart "j1" "ocr.extract" (PStr "a.png") 0%Q;
              JobsStart "j2" "ocr.extract" (PStr "b.png") 1%Q;
              Dequeue "j1"; Enter "j1" 2%Q; Progress "j1" 80%Q "Extracting text..."] in
  let tr := default [] (trace evs (init registry)) in
  let s := default (init registry) (last tr) in
  let s' := default s (fst <$> step (Progress "j1" 250%Q "") s) in
  state_at "j1" s = Some Running
  ∧ (∃ job, jobs s !! "j1" = Some job
            ∧ jobs s' !! "j1"
              = Some (mkJob (job_id job) (job_type job) Running 250%Q "" (result job)
                        (error job) (created_at job) (started_at job) (completed_at job)))
  ∧ jobs s' !! "j2" = jobs s !! "j2"
  ∧ futures s' = futures s
  ∧ dispatcher s' = dispatcher s.
Proof.
  intros registry evs tr s s'.
  destruct (progress_stored_verbatim registry evs tr s s' "j1" "j2" 250%Q "" None)
    as (_ & H2 & H3 & H4 & H5 & H6); [reflexivity|reflexivity|reflexivity|].
  split; [exact H2|]. split; [exact H3|]. split; [apply H4; discriminate|].
  split; [exact H5|exact H6].
Defined.

End SchedulerMore.

(** ** The request dispatcher *)

Section ProtocolFacts.
Import Protocol.

Lemma list_to_map_handlers {St : Type}
    (bodies : string → list (string * json) → St → St * call_result)
    (l : list (string * signature)) (name : string) :
  (list_to_map ((λ '(n, sg), (n, Handler sg (bodies n))) <$> l) : gmap string (@handler St))
    !! name
  = (λ sg, Handler sg (bodies name)) <$> ((list_to_map l : gmap string signature) !! name).
Proof.
  induction l as [|[n sg] l IH]; [done|].
  cbn [fmap list_fmap list_to_map foldr]. simpl.
  destruct (decide (n = name)) as [->|Hne].
  - by rewrite !lookup_insert_eq.
  - by rewrite !lookup_insert_ne.
Qed.

Lemma builtin_names_NoDup : NoDup builtin_signatures.*1.
Proof. apply (bool_decide_unpack (NoDup builtin_signatures.*1)). vm_compute. reflexivity. Qed.

(** X27: every line read gets one response.  An error carries one of the
    five codes of the protocol, a success a result that can be written
    out.  The response has the [id] of the request or none.  And a request
    answered as a parse error, an invalid request or an unknown method has
    changed nothing: no handler has run. *)
Theorem rejected_requests_leave_state {St : Type}
    (text : python_text → string)
    (handlers : gmap string (@handler St)) (parsed : string + json) (s : St) :
  let out := handle_line text handlers parsed s in
  match out.2 with
  | Success _ r => json_serializable r = true
  | Error _ code _ => code ∈ [-32700; -32600; -32601; -32602; -32603]
  end
  ∧ (response_id out.2 = JNull
     ∨ ∃ fields, parsed = inr (JObj fields)
                 ∧ response_id out.2 = default JNull (obj_get fields "id"))
  ∧ (error_code out.2 ∈ [Some (-32700); Some (-32600); Some (-32601)] → out.1 = s).
Proof.
  cbv zeta. unfold handle_line, _handle_request.
  assert (∀ code : Z, In code [-32700; -32600; -32601; -32602; -32603] →
                      code ∈ [-32700; -32600; -32601; -32602; -32603]) as Hcode
    by (intros code; apply list_elem_of_In).
  assert (∀ code : Z, code = -32602 ∨ code = -32603 →
                      Some code ∈ [Some (-32700); Some (-32600); Some (-32601)] → False)
    as Hran.
  { intros code Hc Hin. apply list_elem_of_In in Hin. simpl in Hin.
    destruct Hc as [-> | ->]; intuition discriminate. }
  destruct parsed as [line|request].
  { cbn [fst snd response_id error_code].
    split; [apply Hcode; simpl; tauto|]. split; [by left|done]. }
  destruct request as [| | | | |l|fields];
    try (cbn [fst snd response_id error_code]; split; [apply Hcode; simpl; tauto|];
         split; [by left|]; intros Hin; exfalso; eapply Hran, Hin; tauto).
  repeat (case_match; simplify_eq/=);
    (split; [first [done|apply Hcode; simpl; tauto]|]);
    (split; [first [by left|right; by eexists]|]);
    first [done|intros Hin; exfalso; first [eapply Hran, Hin; tauto
                                           |apply list_elem_of_In in Hin; simpl in Hin;
                                            intuition discriminate]].
Qed.

Lemma rejected_requests_leave_state_witness :
  let handlers : gmap string (@handler nat) :=
    {[ "count" := Handler (Signature [] []) (λ _ n, (S n, Returned (PInt (Z.of_nat n)))) ]} in
  let request := JObj [("id", JInt 7); ("method", JStr "reset")] in
  (handle_line (λ _, "") handlers (inr request) 3%nat).1 = 3%nat.
Proof.
  intros handlers request.
  apply (proj2 (proj2 (rejected_requests_leave_state (λ _, "") handlers
                         (inr request) 3%nat))).
  apply list_elem_of_In. simpl. tauto.
Defined.

(** X28: a success response is written exactly when the request is an
    object whose method is the name of a registered handler, whose
    parameters are an object that binds to the handler's signature, and
    the handler's body returns a value that can be written out; the
    response then carries the request's [id] and that value, and the state
    is the one the body leaves. *)
Theorem success_means_handler_returned {St : Type}
    (text : python_text → string)
    (handlers : gmap string (@handler St)) (request : json) (s s' : St)
    (id : json) (r : pyval) :
  handle_line text handlers (inr request) s = (s', Success id r)
  ↔ ∃ fields name h args,
      request = JObj fields
      ∧ obj_get fields "method" = Some (JStr name)
      ∧ name ≠ ""
      ∧ handlers !! name = Some h
      ∧ default (JObj []) (obj_get fields "params") = JObj args
      ∧ binds (handler_signature h) args = true
      ∧ handler_body h args s = (s', Returned r)
      ∧ json_serializable r = true
      ∧ id = default JNull (obj_get fields "id").
Proof.
  split.
  - unfold handle_line, _handle_request. cbv zeta.
    destruct request as [| | | | |l|fields]; try done.
    destruct (obj_get fields "method") as [method|] eqn:Hm; cbn [default from_option Datatypes.id]; [|by simpl].
    destruct (truthy method) eqn:Ht; cbn [negb]; [|by simpl].
    destruct (hashable method) eqn:Hh; cbn [negb]; [|by simpl].
    destruct method as [| | | |name| |]; try (by simpl).
    destruct (handlers !! name) as [h|] eqn:Hl; [|by simpl].
    destruct (default (JObj []) (obj_get fields "params")) as [| | | | | |args] eqn:Hp;
      try (by simpl).
    destruct (binds (handler_signature h) args) eqn:Hb; [|by simpl].
    destruct (handler_body h args s) as [s1 [res|msg|msg]] eqn:Hbody; try (by simpl).
    destruct (json_serializable res) eqn:Hser; [|by simpl].
    intros [= <- <- <-].
    exists fields, name, h, args. repeat split; try done.
    intros ->. done.
  - intros (fields & name & h & args & -> & Hm & Hne & Hl & Hp & Hb & Hbody & Hser & ->).
    unfold handle_line, _handle_request. cbv zeta. rewrite Hm. cbn [default from_option Datatypes.id].
    assert (truthy (JStr name) = true) as ->.
    { simpl. destruct name; [done|done]. }
    cbn [negb hashable]. rewrite Hl, Hp, Hb, Hbody, Hser. done.
Qed.

Lemma success_means_handler_returned_witness :
  let handlers : gmap string (@handler nat) :=
    {[ "count" := Handler (Signature [] ["by"])
                    (λ _ n, (S n, Returned (PInt (Z.of_nat n)))) ]} in
  let request := JObj [("id", JStr "r1"); ("method", JStr "count")] in
  handle_line (λ _, "") handlers (inr request) 3%nat = (4%nat, Success (JStr "r1") (PInt 3)).
Proof.
  intros handlers request.
  apply (proj2 (success_means_handler_returned (λ _, "") handlers request 3%nat 4%nat
                  (JStr "r1") (PInt 3))).
  exists [("id", JStr "r1"); ("method", JStr "count")], "count",
    (Handler (Signature [] ["by"]) (λ _ n, (S n, Returned (PInt (Z.of_nat n))))), [].
  repeat split; try reflexivity. discriminate.
Defined.

(** X29: the server's own table.  A request whose method is a non-empty
    string outside the fourteen registered names is answered "Method not
    found" under its own [id].  A request for one of the fourteen whose
    parameters are not an object, leave out a required name or give a name
    the function does not have, is answered as invalid parameters under its
    own [id].  Either way the function is not entered and nothing
    changes. *)
Theorem builtin_requests_checked_before_call {St : Type}
    (text : python_text → string)
    (bodies : string → list (string * json) → St → St * call_result)
    (fields : list (string * json)) (name : string) (s : St) :
  obj_get fields "method" = Some (JStr name) →
  name ≠ "" →
  let out := handle_line text (_register_builtins bodies) (inr (JObj fields)) s in
  let id := default JNull (obj_get fields "id") in
  let params := default (JObj []) (obj_get fields "params") in
  (name ∉ builtin_signatures.*1 →
   out = (s, Error id (-32601) ("Method not found: " +:+ name)))
  ∧ (∀ sg, (name, sg) ∈ builtin_signatures →
           (∀ args, params = JObj args → binds sg args = false) →
           out = (s, Error id (-32602)
                       ("Invalid params: " +:+ text (CannotBind name params)))).
Proof.
  intros Hm Hne. cbv zeta.
  assert (truthy (JStr name) = true) as Ht by (simpl; by destruct name).
  unfold handle_line, _handle_request. cbv zeta. rewrite Hm. cbn [default from_option Datatypes.id].
  rewrite Ht. cbn [negb hashable].
  unfold _register_builtins. rewrite list_to_map_handlers.
  split.
  - intros Hnot. rewrite (not_elem_of_list_to_map_1 _ _ Hnot). done.
  - intros sg Hin Hbind.
    rewrite (elem_of_list_to_map_1 _ _ _ builtin_names_NoDup Hin).
    cbn [fmap option_fmap option_map handler_signature handler_body].
    destruct (default (JObj []) (obj_get fields "params")) as [| | | | | |args] eqn:Hp;
      try done.
    by rewrite (Hbind args eq_refl).
Qed.

Lemma builtin_requests_checked_before_call_witness :
  let bodies : string → list (string * json) → nat → nat * call_result :=
    λ _ _ n, (S n, Returned PNone) in
  let text : python_text → string := λ _, "TypeError" in
  (handle_line text (_register_builtins bodies)
     (inr (JObj [("id", JInt 1); ("method", JStr "jobs.stop")])) 0%nat
   = (0%nat, Error (JInt 1) (-32601) "Method not found: jobs.stop"))
  ∧ handle_line text (_register_builtins bodies)
      (inr (JObj [("id", JInt 2); ("method", JStr "jobs.status");
                  ("params", JObj [("job_id", JStr "j1")])])) 0%nat
    = (0%nat, Error (JInt 2) (-32602) "Invalid params: TypeError").
Proof.
  intros bodies text. split.
  - refine (proj1 (builtin_requests_checked_before_call text bodies
                     [("id", JInt 1); ("method", JStr "jobs.stop")] "jobs.stop" 0%nat
                     _ _) _).
    + reflexivity.
    + discriminate.
    + apply (bool_decide_unpack _). vm_compute. reflexivity.
  - refine (proj2 (builtin_requests_checked_before_call text bodies
                     [("id", JInt 2); ("method", JStr "jobs.status");
                      ("params", JObj [("job_id", JStr "j1")])] "jobs.status" 0%nat
                     _ _) (Signature ["jobId"] []) _ _).
    + reflexivity.
    + discriminate.
    + apply list_elem_of_In. simpl. right; right; left; reflexivity.
    + intros args [= <-]. vm_compute. reflexivity.
Defined.


End ProtocolFacts.
